(** * RSA demonstrations of the [cyber] repository, embedded in Rocq.

    The development follows two scripts of the repository:

    - [Cryptography/2 Modern Cryptography/4 RSA.py]: the primality test
      [prime], the per-character [encrypt]/[decrypt] and the key generation
      performed at module level (random primes, random public exponent,
      trial-increment search for the private exponent);
    - [Cryptography/2 Modern Cryptography/6 Digital Signature.py]: [gcd],
      [modinv], [generate_keypair], [sign] and [verify];

    and the primality test [is_prime] of
    [Cryptography/2 Modern Cryptography/3 Diffie-Hellman.py].

    Python integers are unbounded, so they are modelled by [Z]; the floor
    division [//] and the remainder [%] of Python agree with [Z.div] and
    [Z.modulo] (the remainder takes the sign of the divisor), except that
    Python raises [ZeroDivisionError] on a zero divisor. *)

From Stdlib Require Import ZArith Znumtheory Zdivisibility Zcong Zpow_facts.
From Stdlib Require Import Zmod.ZmodInv.
From Stdlib Require Import Lia List Bool.
Import ListNotations.

#[local] Open Scope Z_scope.

(** ** Outcomes of Python code *)

(** The built-in exceptions that the modelled code can raise. *)
Inductive exn : Set :=
| ZeroDivisionError
| ValueError
| OverflowError
| UnicodeEncodeError.

(** Running a piece of Python either returns a value, raises an exception
    (none of the scripts catches any, so a raised exception ends the
    program), or is still running when the fuel of the model is used up. *)
Inductive outcome (A : Type) : Type :=
| Returns (a : A)
| Raises (e : exn)
| OutOfFuel.

Arguments Returns {A} a.
Arguments Raises {A} e.
Arguments OutOfFuel {A}.

Definition bind {A B : Type} (c : outcome A) (k : A -> outcome B) : outcome B :=
  match c with
  | Returns a => k a
  | Raises e => Raises e
  | OutOfFuel => OutOfFuel
  end.

Declare Scope py_scope.
Delimit Scope py_scope with py.
Notation "x <- c ;; k" := (bind c (fun x => k))
  (at level 61, c at next level, right associativity) : py_scope.
Notation "' pat <- c ;; k" := (bind c (fun x => match x with pat => k end))
  (at level 61, pat pattern, c at next level, right associativity) : py_scope.
#[local] Open Scope py_scope.

(** [a // b] and [a % b] on Python integers. *)
Definition floordiv (a b : Z) : outcome Z :=
  if b =? 0 then Raises ZeroDivisionError else Returns (a / b).

Definition pymod (a b : Z) : outcome Z :=
  if b =? 0 then Raises ZeroDivisionError else Returns (a mod b).

(** [while cond: body], with the loop state passed explicitly.  One unit of
    fuel is spent on each evaluation of the condition. *)
Fixpoint while_loop {S : Type} (fuel : nat) (cond : S -> outcome bool)
  (body : S -> outcome S) (s : S) : outcome S :=
  match fuel with
  | O => OutOfFuel
  | Datatypes.S fuel' =>
      c <- cond s ;;
      if (c : bool) then s' <- body s ;; while_loop fuel' cond body s'
      else Returns s
  end.

(** [range(lo, hi)] as a list. *)
Definition range (lo hi : Z) : list Z :=
  map (fun k => lo + Z.of_nat k) (seq 0 (Z.to_nat (hi - lo))).

(** ** Built-in functions and types of Python used by the scripts *)

(** A [str] is a sequence of Unicode code points, each in [range(0x110000)];
    [bytes] is a sequence of integers in [range(256)]. *)
Definition pystr : Type := list Z.
Definition pybytes : Type := list Z.

Definition valid_str (s : pystr) : Prop :=
  Forall (fun c => 0 <= c < 0x110000) s.

(** A list comprehension [[f(x) for x in l]]: the elements are computed from
    left to right and the first exception ends the evaluation. *)
Fixpoint mapM {A B : Type} (f : A -> outcome B) (l : list A) : outcome (list B) :=
  match l with
  | [] => Returns []
  | x :: l' => y <- f x ;; ys <- mapM f l' ;; Returns (y :: ys)
  end.

(** [ord(c)] and [chr(v)]; a character is identified with its code point.
    [chr] takes a C [int]: outside its range it raises [OverflowError], and
    inside it [ValueError] when there is no such code point. *)
Definition ord (c : Z) : Z := c.

Definition chr (v : Z) : outcome Z :=
  if (0 <=? v) && (v <? 0x110000) then Returns v
  else if (- 2 ^ 31 <=? v) && (v <? 2 ^ 31) then Raises ValueError
  else Raises OverflowError.

(** [str(z)] for an integer [z]: its decimal digits, with a minus sign for
    a negative number.  A number [n >= 0] has at most [1 + log2 n] digits.
    (The interpreter refuses, by default, to convert numbers of more than
    4300 digits; the model is meant below [10 ^ 4300] in absolute value, and
    the theorems that let these numbers vary say so.) *)
Fixpoint digits (fuel : nat) (n : Z) : pystr :=
  match fuel with
  | O => []
  | S fuel' =>
      if n <? 10 then [48 + n]
      else digits fuel' (n / 10) ++ [48 + n mod 10]
  end.

Definition digits_fuel (n : Z) : nat := S (Z.to_nat (Z.log2 n)).

Definition str (z : Z) : pystr :=
  if z <? 0 then 45 :: digits (digits_fuel (- z)) (- z)
  else digits (digits_fuel z) z.

(** [int(s)] for a string [s]: an optional sign followed by one or more
    ASCII digits.  (Python also accepts surrounding white space, single
    underscores between digits and non-ASCII decimal digits; none of these
    spellings is produced by [str], and the model raises [ValueError] on
    them.  It also refuses, by default, more than 4300 digits: the model
    is meant on the numerals that [str] produces for numbers below
    [10 ^ 4300] in absolute value.) *)
Definition digit_val (c : Z) : option Z :=
  if (48 <=? c) && (c <=? 57) then Some (c - 48) else None.

Fixpoint parse_digits (acc : Z) (s : pystr) : option Z :=
  match s with
  | [] => Some acc
  | c :: s' =>
      match digit_val c with
      | Some v => parse_digits (acc * 10 + v) s'
      | None => None
      end
  end.

Definition parse_unsigned (s : pystr) : option Z :=
  match s with
  | [] => None
  | _ :: _ => parse_digits 0 s
  end.

Definition int (s : pystr) : outcome Z :=
  match s with
  | [] => Raises ValueError
  | c :: s' =>
      if c =? 45 then
        match parse_unsigned s' with
        | Some v => Returns (- v)
        | None => Raises ValueError
        end
      else if c =? 43 then
        match parse_unsigned s' with
        | Some v => Returns v
        | None => Raises ValueError
        end
      else
        match parse_unsigned s with
        | Some v => Returns v
        | None => Raises ValueError
        end
  end.

(** [c.isspace()], the separators of [s.split()]. *)
Definition isspace (c : Z) : bool :=
  ((9 <=? c) && (c <=? 13)) || ((28 <=? c) && (c <=? 32))
  || (c =? 0x85) || (c =? 0xA0) || (c =? 0x1680)
  || ((0x2000 <=? c) && (c <=? 0x200A))
  || (c =? 0x2028) || (c =? 0x2029) || (c =? 0x202F) || (c =? 0x205F)
  || (c =? 0x3000).

(** [s.split()]: the maximal runs of characters that are not white space.
    [cur] holds the current run, last character first. *)
Fixpoint split_from (cur : pystr) (s : pystr) : list pystr :=
  match s with
  | [] => match cur with [] => [] | _ :: _ => [rev cur] end
  | c :: s' =>
      if isspace c then
        match cur with
        | [] => split_from [] s'
        | _ :: _ => rev cur :: split_from [] s'
        end
      else split_from (c :: cur) s'
  end.

Definition split (s : pystr) : list pystr := split_from [] s.

(** [sep.join(l)]. *)
Fixpoint join (sep : pystr) (l : list pystr) : pystr :=
  match l with
  | [] => []
  | [x] => x
  | x :: l' => x ++ sep ++ join sep l'
  end.

(** [pow(base, exp, mod)] on integers: modular exponentiation (by repeated
    squaring); a negative exponent asks for a power of the inverse of
    [base] modulo [mod]. *)
Definition pow (base exp modulus : Z) : outcome Z :=
  if modulus =? 0 then Raises ValueError
  else if exp <? 0 then
    if Z.gcd base modulus =? 1
    then Returns (Zpow_mod (Z.invmod base modulus) (- exp) modulus)
    else Raises ValueError
  else Returns (Zpow_mod base exp modulus).

(** [int.from_bytes(b, 'big')]. *)
Definition int_from_bytes_big (b : pybytes) : Z :=
  fold_left (fun acc x => acc * 256 + x) b 0.

(** [s.encode()]: the UTF-8 encoding; a surrogate cannot be encoded. *)
Definition encode_char (c : Z) : outcome pybytes :=
  if c <? 0x80 then Returns [c]
  else if c <? 0x800 then
    Returns [Z.lor 0xC0 (Z.shiftr c 6); Z.lor 0x80 (Z.land c 0x3F)]
  else if c <? 0x10000 then
    if (0xD800 <=? c) && (c <=? 0xDFFF) then Raises UnicodeEncodeError
    else Returns [Z.lor 0xE0 (Z.shiftr c 12);
                  Z.lor 0x80 (Z.land (Z.shiftr c 6) 0x3F);
                  Z.lor 0x80 (Z.land c 0x3F)]
  else
    Returns [Z.lor 0xF0 (Z.shiftr c 18);
             Z.lor 0x80 (Z.land (Z.shiftr c 12) 0x3F);
             Z.lor 0x80 (Z.land (Z.shiftr c 6) 0x3F);
             Z.lor 0x80 (Z.land c 0x3F)].

Definition encode (s : pystr) : outcome pybytes :=
  bs <- mapM encode_char s ;; Returns (concat bs).

(** ** [hashlib.sha256]

    The digest function of the standard library, following FIPS 180-4 on
    32-bit words held in [Z]. *)
Module SHA256.

Definition w32 (x : Z) : Z := x mod 2 ^ 32.

Definition rotr (n x : Z) : Z :=
  Z.lor (Z.shiftr x n) (w32 (Z.shiftl x (32 - n))).

Definition Ch (x y z : Z) : Z :=
  Z.lxor (Z.land x y) (Z.land (Z.lxor x 0xFFFFFFFF) z).

Definition Maj (x y z : Z) : Z :=
  Z.lxor (Z.lxor (Z.land x y) (Z.land x z)) (Z.land y z).

Definition Sigma0 (x : Z) : Z :=
  Z.lxor (Z.lxor (rotr 2 x) (rotr 13 x)) (rotr 22 x).

Definition Sigma1 (x : Z) : Z :=
  Z.lxor (Z.lxor (rotr 6 x) (rotr 11 x)) (rotr 25 x).

Definition sigma0 (x : Z) : Z :=
  Z.lxor (Z.lxor (rotr 7 x) (rotr 18 x)) (Z.shiftr x 3).

Definition sigma1 (x : Z) : Z :=
  Z.lxor (Z.lxor (rotr 17 x) (rotr 19 x)) (Z.shiftr x 10).

Definition K : list Z :=
  [
     1116352408; 1899447441; 3049323471; 3921009573;
     961987163; 1508970993; 2453635748; 2870763221;
     3624381080; 310598401; 607225278; 1426881987;
     1925078388; 2162078206; 2614888103; 3248222580;
     3835390401; 4022224774; 264347078; 604807628;
     770255983; 1249150122; 1555081692; 1996064986;
     2554220882; 2821834349; 2952996808; 3210313671;
     3336571891; 3584528711; 113926993; 338241895;
     666307205; 773529912; 1294757372; 1396182291;
     1695183700; 1986661051; 2177026350; 2456956037;
     2730485921; 2820302411; 3259730800; 3345764771;
     3516065817; 3600352804; 4094571909; 275423344;
     430227734; 506948616; 659060556; 883997877;
     958139571; 1322822218; 1537002063; 1747873779;
     1955562222; 2024104815; 2227730452; 2361852424;
     2428436474; 2756734187; 3204031479; 3329325298
  ].

Definition H0 : list Z :=
  [1779033703; 3144134277; 1013904242; 2773480762;
   1359893119; 2600822924; 528734635; 1541459225].

(** Big-endian bytes of a number, [k] of them. *)
Fixpoint to_bytes_big (k : nat) (x : Z) : pybytes :=
  match k with
  | O => []
  | S k' => to_bytes_big k' (x / 256) ++ [x mod 256]
  end.

Definition pad (msg : pybytes) : pybytes :=
  let len := Z.of_nat (length msg) in
  msg ++ [128] ++ repeat 0 (Z.to_nat ((55 - len) mod 64))
      ++ to_bytes_big 8 (8 * len).

(** The blocks of 64 bytes of a padded message; [k] is their number. *)
Fixpoint blocks (k : nat) (m : pybytes) : list pybytes :=
  match k with
  | O => []
  | S k' => firstn 64 m :: blocks k' (skipn 64 m)
  end.

Definition words (block : pybytes) : list Z :=
  map (fun j => int_from_bytes_big (firstn 4 (skipn (4 * j) block))) (seq 0 16).

(** The message schedule, most recent word first. *)
Fixpoint schedule (k : nat) (ws : list Z) : list Z :=
  match k with
  | O => ws
  | S k' =>
      let w := w32 (sigma1 (nth 1 ws 0) + nth 6 ws 0
                    + sigma0 (nth 14 ws 0) + nth 15 ws 0) in
      schedule k' (w :: ws)
  end.

Definition round (s : Z * Z * Z * Z * Z * Z * Z * Z) (kw : Z * Z) :
  Z * Z * Z * Z * Z * Z * Z * Z :=
  let '(a, b, c, d, e, f, g, h) := s in
  let '(k, w) := kw in
  let t1 := h + Sigma1 e + Ch e f g + k + w in
  let t2 := Sigma0 a + Maj a b c in
  (w32 (t1 + t2), a, b, c, w32 (d + t1), e, f, g).

Definition compress (hs : Z * Z * Z * Z * Z * Z * Z * Z) (block : pybytes) :
  Z * Z * Z * Z * Z * Z * Z * Z :=
  let ws := rev (schedule 48 (rev (words block))) in
  let '(a, b, c, d, e, f, g, h) := fold_left round (combine K ws) hs in
  let '(a0, b0, c0, d0, e0, f0, g0, h0) := hs in
  (w32 (a0 + a), w32 (b0 + b), w32 (c0 + c), w32 (d0 + d),
   w32 (e0 + e), w32 (f0 + f), w32 (g0 + g), w32 (h0 + h)).

Definition digest (msg : pybytes) : pybytes :=
  let m := pad msg in
  let init := (nth 0 H0 0, nth 1 H0 0, nth 2 H0 0, nth 3 H0 0,
               nth 4 H0 0, nth 5 H0 0, nth 6 H0 0, nth 7 H0 0) in
  let '(a, b, c, d, e, f, g, h) :=
    fold_left compress (blocks (length m / 64) m) init in
  concat (map (to_bytes_big 4) [a; b; c; d; e; f; g; h]).

End SHA256.

(** ** [6 Digital Signature.py]: helper functions *)

Module Signature.

(** [[
def gcd(a, b):
    while b:
        a, b = b, a % b
    return a
]]
    The loop stops after at most [|b|] iterations, which is the fuel given
    to it. *)
Definition gcd_cond (s : Z * Z) : outcome bool :=
  let '(a, b) := s in Returns (negb (b =? 0)).

Definition gcd_body (s : Z * Z) : outcome (Z * Z) :=
  let '(a, b) := s in
  r <- pymod a b ;; Returns (b, r).

Definition gcd (a b : Z) : outcome Z :=
  '(a, b) <- while_loop (S (Z.abs_nat b)) gcd_cond gcd_body (a, b) ;;
  Returns a.

(** [[
def modinv(a, m):
    m0, x0, x1 = m, 0, 1
    while a > 1:
        q = a // m
        a, m = m, a % m
        x0, x1 = x1 - q * x0, x0
    return x1 + m0 if x1 < 0 else x1
]]
    The state of the loop is [(a, m, x0, x1)]. *)
Definition modinv_cond (s : Z * Z * Z * Z) : outcome bool :=
  let '(a, m, x0, x1) := s in Returns (1 <? a).

Definition modinv_body (s : Z * Z * Z * Z) : outcome (Z * Z * Z * Z) :=
  let '(a, m, x0, x1) := s in
  q <- floordiv a m ;;
  r <- pymod a m ;;
  Returns (m, r, x1 - q * x0, x0).

Definition modinv (a m : Z) : outcome Z :=
  let m0 := m in
  '(a, m, x0, x1) <-
    while_loop (Z.to_nat m + 3) modinv_cond modinv_body (a, m, 0, 1) ;;
  Returns (if x1 <? 0 then x1 + m0 else x1).

(** [[
def generate_keypair(p, q):
    n = p * q
    phi = (p - 1) * (q - 1)
    e = 65537
    if gcd(e, phi) != 1:
        e = 3
        while gcd(e, phi) != 1:
            e += 2
    d = modinv(e, phi)
    return (e, n), (d, n)
]]
    The search for [e] is the only loop whose length is not bounded in
    advance; [fuel] bounds the number of candidates it may try. *)
Definition find_e_cond (phi e : Z) : outcome bool :=
  g <- gcd e phi ;; Returns (negb (g =? 1)).

Definition find_e_body (e : Z) : outcome Z := Returns (e + 2).

Definition generate_keypair (fuel : nat) (p q : Z) :
  outcome ((Z * Z) * (Z * Z)) :=
  let n := p * q in
  let phi := (p - 1) * (q - 1) in
  let e := 65537 in
  g <- gcd e phi ;;
  e <- (if negb (g =? 1)
        then while_loop fuel (find_e_cond phi) find_e_body 3
        else Returns e) ;;
  d <- modinv e phi ;;
  Returns ((e, n), (d, n)).

(** [[
    msg_hash = int.from_bytes(hashlib.sha256(msg.encode()).digest(), 'big') % n
]]
    shared by [sign] and [verify]. *)
Definition msg_hash (msg : pystr) (n : Z) : outcome Z :=
  b <- encode msg ;;
  pymod (int_from_bytes_big (SHA256.digest b)) n.

(** [[
def sign(msg, private_key):
    d, n = private_key
    msg_hash = ... % n
    return pow(msg_hash, d, n)
]] *)
Definition sign (msg : pystr) (private_key : Z * Z) : outcome Z :=
  let '(d, n) := private_key in
  h <- msg_hash msg n ;;
  pow h d n.

(** [[
def verify(msg, signature, public_key):
    e, n = public_key
    msg_hash = ... % n
    hash_from_sig = pow(signature, e, n)
    return msg_hash == hash_from_sig
]] *)
Definition verify (msg : pystr) (signature : Z) (public_key : Z * Z) :
  outcome bool :=
  let '(e, n) := public_key in
  h <- msg_hash msg n ;;
  hash_from_sig <- pow signature e n ;;
  Returns (h =? hash_from_sig).

End Signature.

(** ** [4 RSA.py] *)

Module RSA.

(** [[
def prime(num):
    if num == 1:
        return False
    elif num == 2:
        return True
    for i in range(2, num):
        if num % i == 0:
            return False
    return True
]] *)
Definition prime (num : Z) : bool :=
  if num =? 1 then false
  else if num =? 2 then true
  else forallb (fun i => negb (num mod i =? 0)) (range 2 num).

(** [[
def encrypt(msg, n, e):
    msg = [ord(i) ** e % n for i in list(msg)]
    return ' '.join(map(str, msg))
]]
    The exponent is not negative in any call of the script (for a negative
    exponent [**] leaves the integers), so [**] is [Z.pow]. *)
Definition encrypt (msg : pystr) (n e : Z) : outcome pystr :=
  cs <- mapM (fun i => pymod (ord i ^ e) n) msg ;;
  Returns (join [32] (map str cs)).

(** [[
def decrypt(msg, n, d):
    msg = [chr((int(i) ** d) % n) for i in msg.split()]
    return ''.join(msg)
]]
    As in [encrypt], [**] is [Z.pow]: the model is meant for an exponent
    that is not negative (with a negative one Python computes a float, and
    [chr] refuses it). *)
Definition decrypt_char (n d : Z) (i : pystr) : outcome Z :=
  v <- int i ;;
  r <- pymod (v ^ d) n ;;
  chr r.

Definition decrypt (msg : pystr) (n d : Z) : outcome pystr :=
  mapM (decrypt_char n d) (split msg).

(** Key generation, performed at module level.  The three calls of
    [random.choice] are modelled by membership in the list drawn from:
    [[
prime_list = list(i for i in range(127, 500+1) if prime(i))
p = random.choice(prime_list)
q = random.choice(prime_list)
n = p * q
phi_n = (p - 1) * (q - 1)
e = random.choice([i for i in range(2, n) if math.gcd(i, phi_n) == 1])
d = 1
while (e * d) % phi_n != 1:
    d += 1
public_key = (n, e)
private_key = (n, d)
]] *)
Definition prime_list : list Z := filter prime (range 127 (500 + 1)).

Definition e_choices (n phi_n : Z) : list Z :=
  filter (fun i => Z.gcd i phi_n =? 1) (range 2 n).

Definition find_d_cond (e phi_n d : Z) : outcome bool :=
  r <- pymod (e * d) phi_n ;; Returns (negb (r =? 1)).

Definition find_d_body (d : Z) : outcome Z := Returns (d + 1).

Definition find_d (fuel : nat) (e phi_n : Z) : outcome Z :=
  while_loop fuel (find_d_cond e phi_n) find_d_body 1.

(** The keys computed from the primes [p], [q] and the exponent [e] that
    were drawn. *)
Definition keys_from (fuel : nat) (p q e : Z) : outcome ((Z * Z) * (Z * Z)) :=
  let n := p * q in
  let phi_n := (p - 1) * (q - 1) in
  d <- find_d fuel e phi_n ;;
  Returns ((n, e), (n, d)).

(** A run of the key generation: the values drawn and the keys obtained. *)
Definition key_generation (fuel : nat) (p q e : Z)
  (keys : (Z * Z) * (Z * Z)) : Prop :=
  In p prime_list /\ In q prime_list /\
  In e (e_choices (p * q) ((p - 1) * (q - 1))) /\
  keys_from fuel p q e = Returns keys.

End RSA.

(** ** [3 Diffie-Hellman.py] *)

Module DiffieHellman.

(** [[
def is_prime(num):
    if num <= 1:
        return False
    for i in range(2, int(num**0.5) + 1):
        if num % i == 0:
            return False
    return True
]]
    [int(num**0.5)] goes through a double-precision square root; on the
    numbers that a double represents exactly and whose root rounds
    correctly it is the integer square root, which is what the model
    takes. *)
Definition is_prime (num : Z) : bool :=
  if num <=? 1 then false
  else forallb (fun i => negb (num mod i =? 0)) (range 2 (Z.sqrt num + 1)).




End DiffieHellman.

(** ** Vocabulary of the proofs *)

Ltac split_and := repeat match goal with |- _ /\ _ => split end.

(** Invariant of the loop of [gcd a b]: the greatest common divisor is kept,
    and after the first iteration the values carry the sign of [b]. *)
Definition gcd_inv (a b : Z) (s : Z * Z) : Prop :=
  let '(a', b') := s in
  Z.gcd a' b' = Z.gcd a b /\
  ((a', b') = (a, b) \/
   (a' <> 0 /\ Z.sgn a' = Z.sgn b /\ (b' <> 0 -> Z.sgn b' = Z.sgn b))).

(** Invariant of the loop of [modinv a0 m0] when [a0] and [m0] are coprime:
    [x1] and [x0] are the coefficients of [a0] in [a] and [m] modulo [m0],
    their signs alternate, and [m * x1 - a * x0] is [m0] up to the sign. *)
Definition modinv_inv (a0 m0 : Z) (s : Z * Z * Z * Z) : Prop :=
  let '(a, m, x0, x1) := s in
  1 <= a /\ 0 <= m /\ Z.gcd a m = 1 /\
  (m0 | a - x1 * a0) /\ (m0 | m - x0 * a0) /\
  ((x0 <= 0 <= x1 /\ m * x1 - a * x0 = m0) \/
   (x1 <= 0 <= x0 /\ a * x0 - m * x1 = m0)) /\
  2 * Z.abs x1 <= m0.

(** Invariant of the loop of [modinv] on arguments with a common factor
    [g]. *)
Definition modinv_bad_inv (g : Z) (s : Z * Z * Z * Z) : Prop :=
  let '(a, m, x0, x1) := s in 0 < a /\ 0 <= m /\ (g | a) /\ (g | m).

(** The public exponent that [generate_keypair] selects for [phi]. *)
Definition public_exponent_spec (phi e : Z) : Prop :=
  if Z.gcd 65537 phi =? 1 then e = 65537
  else 3 <= e < phi /\ Z.Odd e /\
       forall e', 3 <= e' < e -> Z.Odd e' -> Z.gcd e' phi <> 1.

(** The digest of the encoded message, as an integer. *)
Definition digest_int (b : pybytes) : Z := int_from_bytes_big (SHA256.digest b).

(** The numbers that [str] and [int] convert without hitting the default
    limit of 4300 digits. *)
Definition within_digit_limit (c : Z) : Prop := - 10 ^ 4300 < c < 10 ^ 4300.

(** Characters of a decimal numeral. *)
Definition is_digit (c : Z) : Prop := 48 <= c <= 57.

(** A token: a non-empty string without white space. *)
Definition token (s : pystr) : Prop :=
  s <> [] /\ Forall (fun c => isspace c = false) s.

(** ** Tests of the model against known values *)

Example sha256_abc :
  int_from_bytes_big (SHA256.digest [97; 98; 99]) =
  84342368487090800366523834928142263660104883695016514377462985829716817089965.
Proof. vm_compute. reflexivity. Qed.

Example sha256_empty :
  int_from_bytes_big (SHA256.digest []) =
  102987336249554097029535212322581322789799900648198034993379397001115665086549.
Proof. vm_compute. reflexivity. Qed.

Example sha256_four_blocks :
  int_from_bytes_big (SHA256.digest (repeat 97 200)) =
  88047350858478744061130545739866808851289371543954694037876147784555442637541.
Proof. vm_compute. reflexivity. Qed.

Example encode_utf8 :
  encode [233; 8364; 128512] =
  Returns [195; 169; 226; 130; 172; 240; 159; 152; 128].
Proof. reflexivity. Qed.

Example encode_surrogate : encode [72; 0xD800] = Raises UnicodeEncodeError.
Proof. reflexivity. Qed.

Example gcd_17_780 : Signature.gcd 17 780 = Returns 1.
Proof. reflexivity. Qed.

Example modinv_17_780 : Signature.modinv 17 780 = Returns 413.
Proof. reflexivity. Qed.

Example generate_keypair_61_53 :
  Signature.generate_keypair 0 61 53 = Returns ((65537, 3233), (2753, 3233)).
Proof. vm_compute. reflexivity. Qed.

Example str_1205 : str 1205 = [49; 50; 48; 53].
Proof. reflexivity. Qed.

Example split_example :
  split [32; 49; 50; 32; 32; 51; 10] = [[49; 50]; [51]].
Proof. reflexivity. Qed.

Example encrypt_A : RSA.encrypt [65] 3233 17 = Returns (str 2790).
Proof. vm_compute. reflexivity. Qed.

Example decrypt_2790 : RSA.decrypt (str 2790) 3233 413 = Returns [65].
Proof. vm_compute. reflexivity. Qed.

(** ** Reasoning about outcomes and loops *)


Lemma bind_returns {A B : Type} (c : outcome A) (k : A -> outcome B) (b : B) :
  bind c k = Returns b <-> exists a, c = Returns a /\ k a = Returns b.
Proof.
  destruct c as [a | e | ]; simpl; split.
  - intros H. exists a. auto.
  - intros (a' & Ha & Hk). inversion Ha. subst. exact Hk.
  - discriminate.
  - intros (a' & Ha & _). discriminate.
  - discriminate.
  - intros (a' & Ha & _). discriminate.
Qed.

(** More fuel does not change the result of a loop that has finished. *)
Lemma while_loop_mono {S : Type} (cond : S -> outcome bool)
  (body : S -> outcome S) (fuel fuel' : nat) (s : S) (r : outcome S) :
  while_loop fuel cond body s = r -> r <> OutOfFuel -> (fuel <= fuel')%nat ->
  while_loop fuel' cond body s = r.
Proof.
  revert fuel' s. induction fuel as [| fuel IH]; intros fuel' s Hr Hne Hle.
  - simpl in Hr. congruence.
  - destruct fuel' as [| fuel']; [lia |].
    simpl in *. destruct (cond s) as [[|] | e | ]; simpl in *; auto.
    destruct (body s) as [s' | e | ]; simpl in *; auto.
    apply IH; auto. lia.
Qed.

(** Total correctness of a loop: an invariant [I] and a variant [mu] that
    decreases at each iteration. *)
Lemma while_loop_total {S : Type} (I : S -> Prop) (mu : S -> nat)
  (cond : S -> outcome bool) (body : S -> outcome S) :
  (forall s, I s ->
     cond s = Returns false \/
     (cond s = Returns true /\
      exists s', body s = Returns s' /\ I s' /\ (mu s' < mu s)%nat)) ->
  forall fuel s, I s -> (mu s < fuel)%nat ->
  exists s', while_loop fuel cond body s = Returns s' /\ I s' /\
             cond s' = Returns false.
Proof.
  intros Hstep. induction fuel as [| fuel IH]; intros s HI Hmu; [lia |].
  simpl. destruct (Hstep s HI) as [Hc | (Hc & s' & Hb & HI' & Hlt)].
  - rewrite Hc. simpl. exists s. auto.
  - rewrite Hc. simpl. rewrite Hb. simpl. apply IH; auto. lia.
Qed.

(** A loop whose condition holds as long as the invariant does can only be
    left by an exception. *)
Lemma while_loop_raises {S : Type} (I : S -> Prop) (mu : S -> nat)
  (cond : S -> outcome bool) (body : S -> outcome S) (e : exn) :
  (forall s, I s ->
     cond s = Returns true /\
     (body s = Raises e \/
      exists s', body s = Returns s' /\ I s' /\ (mu s' < mu s)%nat)) ->
  forall fuel s, I s -> (mu s < fuel)%nat ->
  while_loop fuel cond body s = Raises e.
Proof.
  intros Hstep. induction fuel as [| fuel IH]; intros s HI Hmu; [lia |].
  simpl. destruct (Hstep s HI) as (Hc & [Hb | (s' & Hb & HI' & Hlt)]).
  - rewrite Hc. simpl. rewrite Hb. reflexivity.
  - rewrite Hc. simpl. rewrite Hb. simpl. apply IH; auto. lia.
Qed.

(** ** [gcd] *)

Module SignatureFacts.
Import Signature.

Lemma gcd_loop_spec (a b : Z) :
  exists a', while_loop (S (Z.abs_nat b)) gcd_cond gcd_body (a, b)
             = Returns (a', 0) /\ gcd_inv a b (a', 0).
Proof.
  destruct (while_loop_total (gcd_inv a b) (fun s => Z.abs_nat (snd s))
              gcd_cond gcd_body) with (fuel := S (Z.abs_nat b)) (s := (a, b))
    as ([a' b'] & Hrun & Hinv & Hcond).
  - intros [a' b'] (Hg & Hs). unfold gcd_cond, gcd_body, pymod.
    destruct (Z.eqb_spec b' 0) as [-> | Hb']; simpl; [left; reflexivity |].
    right. split; [reflexivity |].
    exists (b', a' mod b'). split; [reflexivity |]. split.
    + split.
      * rewrite Z.gcd_comm, Z.gcd_mod by assumption. rewrite Z.gcd_comm. exact Hg.
      * right. assert (Hsb : Z.sgn b' = Z.sgn b).
        { destruct Hs as [Heq | (_ & _ & Hs)]; [inversion Heq; reflexivity | auto]. }
        split; [assumption |]. split; [assumption |].
        intros Hr. rewrite <- Hsb.
        pose proof (Z.mod_bound_or a' b' Hb'). lia.
    + simpl. pose proof (Z.mod_bound_or a' b' Hb'). lia.
  - split; [reflexivity | left; reflexivity].
  - simpl. lia.
  - unfold gcd_cond in Hcond.
    destruct (Z.eqb_spec b' 0) as [-> | Hb']; [| discriminate].
    exists a'. auto.
Qed.

(** [gcd] always returns; the result is the greatest common divisor up to
    the sign, which is that of [b] (and [a] itself when [b] is zero). *)
Lemma gcd_spec (a b : Z) :
  gcd a b = Returns (if b =? 0 then a else Z.sgn b * Z.gcd a b).
Proof.
  unfold gcd. destruct (gcd_loop_spec a b) as (a' & -> & Hg & Hs). simpl.
  f_equal. rewrite Z.gcd_0_r in Hg.
  destruct Hs as [Heq | (Ha' & Hsa & _)].
  - inversion Heq. subst. reflexivity.
  - destruct (Z.eqb_spec b 0) as [-> | Hb].
    + simpl in Hsa. lia.
    + rewrite <- Hg, <- Hsa. symmetry. rewrite Z.mul_comm. apply Z.abs_sgn.
Qed.

Lemma gcd_nonneg (a b : Z) :
  0 <= a -> 0 <= b -> gcd a b = Returns (Z.gcd a b).
Proof.
  intros Ha Hb. rewrite gcd_spec. f_equal.
  destruct (Z.eqb_spec b 0) as [-> | Hb0].
  - rewrite Z.gcd_0_r. lia.
  - rewrite Z.sgn_pos by lia. lia.
Qed.

(** ** [modinv] *)

Lemma modinv_inv_init (a0 m0 : Z) :
  1 <= a0 -> 2 <= m0 -> Z.gcd a0 m0 = 1 -> modinv_inv a0 m0 (a0, m0, 0, 1).
Proof.
  intros Ha Hm Hg. unfold modinv_inv. split_and; try lia; try assumption.
  - exists 0. ring.
  - exists 1. ring.
Qed.

Lemma modinv_inv_step (a0 m0 a m x0 x1 : Z) :
  modinv_inv a0 m0 (a, m, x0, x1) -> 1 < a ->
  0 < m /\
  modinv_inv a0 m0 (m, a mod m, x1 - a / m * x0, x0).
Proof.
  intros (Ha & Hm & Hg & (u & Hu) & (v & Hv) & Hdet & Hx1) Ha1.
  assert (Hm0 : 0 < m).
  { destruct (Z.eq_dec m 0) as [-> | ?]; [| lia].
    rewrite Z.gcd_0_r in Hg. lia. }
  split; [assumption |].
  pose proof (Z.mod_pos_bound a m Hm0) as Hr.
  pose proof (Z.div_mod a m ltac:(lia)) as Hdm.
  assert (Hq : 0 <= a / m) by (apply Z.div_pos; lia).
  set (q := a / m) in *. set (r := a mod m) in *.
  unfold modinv_inv. split_and; try lia.
  - unfold r. rewrite Z.gcd_comm, Z.gcd_mod by lia.
    rewrite Z.gcd_comm. exact Hg.
  - exists v. lia.
  - exists (u - q * v). replace r with (a - m * q) by lia.
    replace (a - m * q - (x1 - q * x0) * a0)
      with ((a - x1 * a0) - q * (m - x0 * a0)) by ring.
    rewrite Hu, Hv. ring.
  - destruct Hdet as [((Hx0 & Hx1') & Hd) | ((Hx1' & Hx0) & Hd)]; nia.
Qed.

Lemma modinv_loop_coprime (a0 m0 : Z) :
  1 <= a0 -> 2 <= m0 -> Z.gcd a0 m0 = 1 ->
  exists m x0 x1,
    while_loop (Z.to_nat m0 + 3) modinv_cond modinv_body (a0, m0, 0, 1)
    = Returns (1, m, x0, x1) /\ modinv_inv a0 m0 (1, m, x0, x1).
Proof.
  intros Ha Hm Hg.
  destruct (while_loop_total (modinv_inv a0 m0)
              (fun s => Z.to_nat (snd (fst (fst s)))) modinv_cond modinv_body)
    with (fuel := (Z.to_nat m0 + 3)%nat) (s := (a0, m0, 0, 1))
    as ([[[a m] x0] x1] & Hrun & Hinv & Hcond).
  - intros [[[a m] x0] x1] Hinv. unfold modinv_cond, modinv_body.
    destruct (Z.ltb_spec 1 a) as [Ha1 | Ha1]; [right | left; reflexivity].
    split; [reflexivity |].
    destruct (modinv_inv_step _ _ _ _ _ _ Hinv Ha1) as (Hm0 & Hinv').
    unfold floordiv, pymod. destruct (Z.eqb_spec m 0); [lia |]. simpl.
    eexists. split; [reflexivity |]. split; [exact Hinv' |]. simpl.
    pose proof (Z.mod_pos_bound a m Hm0). lia.
  - apply modinv_inv_init; assumption.
  - simpl. lia.
  - unfold modinv_cond in Hcond.
    destruct (Z.ltb_spec 1 a) as [Ha1 | Ha1]; [discriminate |].
    assert (a = 1) by (destruct Hinv; lia). subst a.
    exists m, x0, x1. auto.
Qed.

(** For coprime arguments [modinv] returns the inverse of [a] modulo [m],
    taken in [(0, m)]. *)
Lemma modinv_coprime (a m : Z) :
  1 <= a -> 2 <= m -> Z.gcd a m = 1 ->
  exists d, modinv a m = Returns d /\ 0 < d < m /\ (a * d) mod m = 1.
Proof.
  intros Ha Hm Hg. unfold modinv.
  destruct (modinv_loop_coprime a m Ha Hm Hg)
    as (m' & x0 & x1 & -> & (_ & _ & _ & (u & Hu) & _ & _ & Hx1)).
  simpl. eexists. split; [reflexivity |].
  assert (Hx1nz : x1 <> 0).
  { intros ->. assert (m * u = 1) by lia.
    assert (Hd : (m | 1)) by (exists u; lia).
    apply Z.divide_1_r_nonneg in Hd; lia. }
  assert (Hmod : forall d, d = x1 \/ d = x1 + m -> (a * d) mod m = 1).
  { intros d Hd. rewrite <- (Z.mod_small 1 m) by lia.
    apply Z.cong_iff_ex. destruct Hd as [-> | ->].
    - exists (- u). lia.
    - exists (a - u). lia. }
  destruct (Z.ltb_spec x1 0); split; try lia; apply Hmod; auto.
Qed.

(** When the arguments have a common factor, the loop runs the Euclidean
    algorithm down to a zero divisor: the division [a // m] raises. *)
Lemma modinv_not_coprime_raises (a m : Z) :
  1 < a -> 0 <= m -> Z.gcd a m <> 1 -> modinv a m = Raises ZeroDivisionError.
Proof.
  intros Ha Hm Hg. unfold modinv.
  set (g := Z.gcd a m).
  assert (Hg2 : 2 <= g).
  { pose proof (Z.gcd_nonneg a m). subst g.
    destruct (Z.eq_dec (Z.gcd a m) 0) as [H0 | ?]; [| lia].
    apply Z.gcd_eq_0_l in H0. lia. }
  rewrite (while_loop_raises (modinv_bad_inv g)
             (fun s => Z.to_nat (snd (fst (fst s)))) modinv_cond modinv_body
             ZeroDivisionError); [reflexivity | | |].
  - intros [[[a' m'] x0] x1] (Ha' & Hm' & Hga & Hgm).
    unfold modinv_cond, modinv_body, floordiv, pymod.
    assert (g <= a') by (apply Z.divide_pos_le; assumption).
    split; [destruct (Z.ltb_spec 1 a'); [reflexivity | lia] |].
    destruct (Z.eqb_spec m' 0) as [-> | Hm0]; [left; reflexivity | right].
    simpl. eexists. split; [reflexivity |].
    pose proof (Z.mod_pos_bound a' m' ltac:(lia)).
    split; [| simpl; lia].
    unfold modinv_bad_inv. split_and; try lia; try assumption.
    rewrite Z.mod_eq by lia. apply Z.divide_sub_r; [assumption |].
    apply Z.divide_mul_l. assumption.
  - unfold modinv_bad_inv. split_and; try lia.
    + apply Z.gcd_divide_l.
    + apply Z.gcd_divide_r.
  - simpl. lia.
Qed.

(** Outside these cases no iteration, or a single one, is performed. *)
Lemma modinv_small (a m : Z) : a <= 1 -> modinv a m = Returns 1.
Proof.
  intros Ha. unfold modinv.
  replace (Z.to_nat m + 3)%nat with (S (Z.to_nat m + 2)) by lia.
  simpl. destruct (Z.ltb_spec 1 a); [lia |]. reflexivity.
Qed.

Lemma modinv_negative_modulus (a m : Z) :
  1 < a -> m < 0 -> modinv a m = Returns 0.
Proof.
  intros Ha Hm. unfold modinv.
  replace (Z.to_nat m + 3)%nat with 3%nat by lia.
  simpl. unfold floordiv, pymod.
  destruct (Z.ltb_spec 1 a); [| lia].
  destruct (Z.eqb_spec m 0); [lia |]. simpl.
  destruct (Z.ltb_spec 1 m); [lia |]. reflexivity.
Qed.

(** [modinv] never runs out of the fuel it is given. *)
Lemma modinv_total (a m : Z) : modinv a m <> OutOfFuel.
Proof.
  destruct (Z_le_gt_dec a 1) as [Ha | Ha].
  { rewrite modinv_small by assumption. discriminate. }
  destruct (Z_lt_le_dec m 0) as [Hm | Hm].
  { rewrite modinv_negative_modulus by lia. discriminate. }
  destruct (Z.eq_dec (Z.gcd a m) 1) as [Hg | Hg].
  - destruct (Z.eq_dec m 0) as [-> | Hm0].
    { rewrite Z.gcd_0_r in Hg. lia. }
    destruct (Z.eq_dec m 1) as [-> | Hm1].
    + unfold modinv. change (Z.to_nat 1 + 3)%nat with 4%nat.
      cbn [while_loop modinv_cond bind].
      destruct (Z.ltb_spec 1 a); [| lia].
      cbn. discriminate.
    + destruct (modinv_coprime a m) as (d & Hd & _); try lia.
      rewrite Hd. discriminate.
  - rewrite modinv_not_coprime_raises by (assumption || lia). discriminate.
Qed.

End SignatureFacts.

(** ** The arithmetic of RSA *)

Module Arith.

Lemma distinct_primes_coprime (p q : Z) :
  Z.prime p -> Z.prime q -> p <> q -> Z.gcd p q = 1.
Proof.
  intros Hp Hq Hne. apply Z.coprime_prime_l; [assumption |].
  intros Hd. apply Hne. apply Z.divide_prime_prime; assumption.
Qed.

Lemma divide_mul_coprime (p q x : Z) :
  Z.gcd p q = 1 -> (p | x) -> (q | x) -> (p * q | x).
Proof.
  intros Hg (k & Hk) Hq. subst x.
  assert (Hqk : (q | k)).
  { apply Z.gauss with (m := p); [rewrite Z.mul_comm; assumption |].
    rewrite Z.gcd_comm. assumption. }
  destruct Hqk as (j & ->). exists j. ring.
Qed.

Lemma cong_divide (a b m : Z) : m <> 0 -> (a mod m = b mod m <-> (m | a - b)).
Proof.
  intros Hm. split.
  - intros H. apply Z.mod_divide; [assumption |].
    rewrite Zminus_mod, H, Z.sub_diag. apply Z.mod_0_l. assumption.
  - intros (k & Hk). replace a with (b + k * m) by lia.
    apply Z.mod_add. assumption.
Qed.

(** Fermat's little theorem, for exponents that are 1 modulo [p - 1]. *)
Lemma pow_one_mod_pred_prime (p x k : Z) :
  Z.prime p -> 0 <= k -> x ^ (1 + k * (p - 1)) mod p = x mod p.
Proof.
  intros Hp Hk. pose proof (Z.prime_ge_2 p Hp) as Hp2.
  rewrite Z.pow_add_r by nia. rewrite Z.pow_1_r.
  destruct (Z.eq_dec (x mod p) 0) as [H0 | Hnz].
  - rewrite <- Z.mul_mod_idemp_l by lia. rewrite H0. reflexivity.
  - rewrite (Z.mul_comm k), Z.pow_mul_r by lia.
    rewrite <- Z.mul_mod_idemp_r by lia.
    rewrite <- Z.mod_pow_l. rewrite (Z.fermat_nz p x Hp Hnz).
    rewrite Z.pow_1_l by assumption.
    rewrite Z.mul_mod_idemp_r by lia. rewrite Z.mul_1_r. reflexivity.
Qed.

(** The heart of RSA: raising to a power that is 1 modulo [(p-1)(q-1)] is
    the identity modulo [p * q], for distinct primes [p] and [q]. *)
Lemma pow_one_mod_phi (p q x t : Z) :
  Z.prime p -> Z.prime q -> p <> q -> 0 <= t ->
  t mod ((p - 1) * (q - 1)) = 1 ->
  x ^ t mod (p * q) = x mod (p * q).
Proof.
  intros Hp Hq Hne Ht Hmod.
  pose proof (Z.prime_ge_2 p Hp) as Hp2. pose proof (Z.prime_ge_2 q Hq) as Hq2.
  set (phi := (p - 1) * (q - 1)) in *.
  assert (Hphi : 0 < phi) by (subst phi; nia).
  pose proof (Z.div_mod t phi ltac:(lia)) as Hdm. rewrite Hmod in Hdm.
  assert (Hk : 0 <= t / phi) by (apply Z.div_pos; lia).
  set (k := t / phi) in *.
  apply cong_divide; [nia |].
  apply divide_mul_coprime.
  - apply distinct_primes_coprime; assumption.
  - apply cong_divide; [lia |].
    replace t with (1 + (k * (q - 1)) * (p - 1)) by (rewrite Hdm; subst phi; ring).
    apply pow_one_mod_pred_prime; [assumption | nia].
  - apply cong_divide; [lia |].
    replace t with (1 + (k * (p - 1)) * (q - 1)) by (rewrite Hdm; subst phi; ring).
    apply pow_one_mod_pred_prime; [assumption | nia].
Qed.

(** Encrypting with [e] and then decrypting with [d] restores [x] modulo
    [n = p * q] as soon as [e * d] is 1 modulo [(p-1)(q-1)]. *)
Lemma pow_pow_inverse (p q e d x : Z) :
  Z.prime p -> Z.prime q -> p <> q -> 0 <= e -> 0 <= d ->
  (e * d) mod ((p - 1) * (q - 1)) = 1 ->
  (x ^ e mod (p * q)) ^ d mod (p * q) = x mod (p * q).
Proof.
  intros Hp Hq Hne He Hd Hed.
  rewrite Z.mod_pow_l, <- Z.pow_mul_r by assumption.
  apply pow_one_mod_phi; try assumption. nia.
Qed.

End Arith.

(** ** [generate_keypair] *)

Module KeypairFacts.
Import Signature SignatureFacts.

Lemma find_e_cond_eq (phi e : Z) :
  0 <= phi -> 0 <= e ->
  find_e_cond phi e = Returns (negb (Z.gcd e phi =? 1)).
Proof.
  intros Hphi He. unfold find_e_cond. rewrite gcd_nonneg by assumption.
  reflexivity.
Qed.

(** The search for [e] stops at the least odd number from 3 on that is
    coprime to [phi], as soon as some odd [c >= 3] is coprime to [phi]. *)
Lemma find_e_spec (phi c : Z) (fuel : nat) :
  0 <= phi -> 3 <= c -> Z.Odd c -> Z.gcd c phi = 1 ->
  (Z.to_nat c <= fuel)%nat ->
  exists e, while_loop fuel (find_e_cond phi) find_e_body 3 = Returns e /\
            3 <= e <= c /\ Z.Odd e /\ Z.gcd e phi = 1 /\
            (forall e', 3 <= e' < e -> Z.Odd e' -> Z.gcd e' phi <> 1).
Proof.
  intros Hphi Hc Hodd Hg Hfuel.
  destruct (while_loop_total
              (fun e => 3 <= e <= c /\ Z.Odd e /\
                        forall e', 3 <= e' < e -> Z.Odd e' -> Z.gcd e' phi <> 1)
              (fun e => Z.to_nat (c - e)) (find_e_cond phi) find_e_body)
    with (fuel := fuel) (s := 3) as (e & Hrun & (Hr & Ho & Hmin) & Hcond).
  - intros e (Hr & Ho & Hmin). rewrite find_e_cond_eq by lia.
    destruct (Z.eqb_spec (Z.gcd e phi) 1) as [H1 | H1]; simpl;
      [left; reflexivity | right].
    split; [reflexivity |]. exists (e + 2). split; [reflexivity |].
    assert (e <> c) by congruence.
    destruct Ho as (k & Hk). destruct Hodd as (j & Hj).
    split_and; try lia.
    + exists (k + 1). lia.
    + intros e' He' (i & Hi). destruct (Z.eq_dec e' e) as [-> | Hne].
      * assumption.
      * apply Hmin; [lia | exists i; assumption].
  - split_and; try lia.
    + exists 1. reflexivity.
  - lia.
  - exists e. rewrite find_e_cond_eq in Hcond by lia.
    destruct (Z.eqb_spec (Z.gcd e phi) 1); [| discriminate]. auto.
Qed.

(** An odd number coprime to [phi] just below [phi]. *)
Lemma odd_coprime_below (phi : Z) :
  5 <= phi ->
  exists c, 3 <= c < phi /\ Z.Odd c /\ Z.gcd c phi = 1.
Proof.
  intros Hphi. destruct (Z.Even_or_Odd phi) as [(k & Hk) | (k & Hk)].
  - exists (phi - 1). split_and; try lia.
    + exists (k - 1). lia.
    + replace phi with (1 + 1 * (phi - 1)) at 2 by ring.
      rewrite Z.gcd_add_mult_diag_r. apply Z.gcd_1_r.
  - exists (phi - 2). split_and; try lia.
    + exists (k - 1). lia.
    + replace phi with (2 + 1 * (phi - 2)) at 2 by ring.
      rewrite Z.gcd_add_mult_diag_r.
      replace (phi - 2) with (2 * k - 1) by lia.
      rewrite Z.gcd_comm.
      replace (2 * k - 1) with (-1 + k * 2) by ring.
      rewrite Z.gcd_add_mult_diag_r. reflexivity.
Qed.

(** When 65537 is not coprime to [phi], [phi] is at least 5. *)
Lemma gcd_65537_small (phi : Z) :
  0 < phi -> Z.gcd 65537 phi <> 1 -> 5 <= phi.
Proof.
  intros Hpos Hg.
  destruct (Z_lt_le_dec phi 5) as [Hlt | ?]; [| assumption].
  exfalso. apply Hg.
  assert (H : phi = 1 \/ phi = 2 \/ phi = 3 \/ phi = 4) by lia.
  destruct H as [-> | [-> | [-> | ->]]]; reflexivity.
Qed.

(** What [generate_keypair] returns when [phi = (p-1)(q-1)] exceeds 1:
    the public exponent is 65537 if that is coprime to [phi] and the least
    odd number from 3 on coprime to [phi] otherwise, and the private
    exponent is its inverse modulo [phi]. *)
Lemma generate_keypair_spec (p q : Z) :
  1 < (p - 1) * (q - 1) ->
  exists e d,
    (forall fuel, (Z.to_nat ((p - 1) * (q - 1)) <= fuel)%nat ->
       generate_keypair fuel p q = Returns ((e, p * q), (d, p * q))) /\
    public_exponent_spec ((p - 1) * (q - 1)) e /\
    1 < e /\ Z.gcd e ((p - 1) * (q - 1)) = 1 /\
    0 < d < (p - 1) * (q - 1) /\ (e * d) mod ((p - 1) * (q - 1)) = 1.
Proof.
  set (phi := (p - 1) * (q - 1)). intros Hphi.
  unfold generate_keypair, public_exponent_spec. cbv zeta. fold phi.
  rewrite gcd_nonneg by lia. cbn [bind].
  destruct (Z.eqb_spec (Z.gcd 65537 phi) 1) as [Hg | Hg]; cbn [negb bind].
  - destruct (modinv_coprime 65537 phi) as (d & Hd & Hr & Hm); try lia.
    exists 65537, d. split_and; auto; try lia.
    intros fuel _. rewrite Hd. reflexivity.
  - pose proof (gcd_65537_small phi ltac:(lia) Hg) as H5.
    destruct (odd_coprime_below phi H5) as (c & Hc & Hodd & Hgc).
    destruct (find_e_spec phi c (Z.to_nat phi))
      as (e & Hrun & He & Ho & Hge & Hmin); try lia; try assumption.
    destruct (modinv_coprime e phi) as (d & Hd & Hr & Hm); try lia.
    exists e, d. split_and; auto; try lia.
    intros fuel Hfuel.
    rewrite (while_loop_mono _ _ _ fuel _ _ Hrun) by (congruence || lia).
    cbn [bind]. rewrite Hd. reflexivity.
Qed.

(** The result of [generate_keypair] does not depend on the fuel, once
    there is enough of it. *)
Lemma generate_keypair_mono (fuel fuel' : nat) (p q : Z) keys :
  generate_keypair fuel p q = Returns keys -> (fuel <= fuel')%nat ->
  generate_keypair fuel' p q = Returns keys.
Proof.
  unfold generate_keypair. intros H Hle.
  destruct (gcd 65537 ((p - 1) * (q - 1))) as [g | |]; simpl in *; try discriminate.
  destruct (negb (g =? 1)); [| exact H].
  destruct (while_loop fuel (find_e_cond ((p - 1) * (q - 1))) find_e_body 3)
    as [e | |] eqn:Hrun; simpl in H; try discriminate.
  rewrite (while_loop_mono _ _ _ fuel' _ _ Hrun) by (congruence || lia).
  exact H.
Qed.

Lemma generate_keypair_returns (fuel : nat) (p q : Z) keys :
  1 < (p - 1) * (q - 1) ->
  generate_keypair fuel p q = Returns keys ->
  exists e d,
    keys = ((e, p * q), (d, p * q)) /\
    public_exponent_spec ((p - 1) * (q - 1)) e /\
    1 < e /\ Z.gcd e ((p - 1) * (q - 1)) = 1 /\
    0 < d < (p - 1) * (q - 1) /\ (e * d) mod ((p - 1) * (q - 1)) = 1.
Proof.
  intros Hphi Hrun.
  destruct (generate_keypair_spec p q Hphi) as (e & d & Hall & Hspec).
  exists e, d. split; [| exact Hspec].
  set (N := Nat.max fuel (Z.to_nat ((p - 1) * (q - 1)))).
  pose proof (generate_keypair_mono fuel N p q keys Hrun ltac:(lia)) as H1.
  rewrite (Hall N ltac:(lia)) in H1. congruence.
Qed.

Lemma distinct_primes_phi (p q : Z) :
  Z.prime p -> Z.prime q -> p <> q -> 1 < (p - 1) * (q - 1).
Proof.
  intros Hp Hq Hne.
  pose proof (Z.prime_ge_2 p Hp). pose proof (Z.prime_ge_2 q Hq). nia.
Qed.

End KeypairFacts.

(** ** [sign] and [verify] *)

Module SignFacts.
Import Signature SignatureFacts KeypairFacts.

Lemma pow_nonneg_exp (base exp modulus : Z) :
  modulus <> 0 -> 0 <= exp ->
  pow base exp modulus = Returns (base ^ exp mod modulus).
Proof.
  intros Hm He. unfold pow.
  destruct (Z.eqb_spec modulus 0); [contradiction |].
  destruct (Z.ltb_spec exp 0); [lia |].
  rewrite Zpow_mod_correct by assumption. reflexivity.
Qed.

(** [pow] only depends on the residue of its base. *)
Lemma pow_mod_base (base exp modulus : Z) :
  pow (base mod modulus) exp modulus = pow base exp modulus.
Proof.
  unfold pow. destruct (Z.eqb_spec modulus 0) as [-> | Hm]; [reflexivity |].
  rewrite Z.gcd_mod_l, Z.invmod_mod_l.
  rewrite !Zpow_mod_correct by assumption.
  rewrite Z.mod_pow_l. reflexivity.
Qed.

Lemma msg_hash_encoded (msg : pystr) (b : pybytes) (n : Z) :
  encode msg = Returns b -> n <> 0 ->
  msg_hash msg n = Returns (digest_int b mod n).
Proof.
  intros Hb Hn. unfold msg_hash, pymod. rewrite Hb. simpl.
  destruct (Z.eqb_spec n 0); [contradiction | reflexivity].
Qed.

Lemma modulus_pos (p q : Z) : Z.prime p -> Z.prime q -> 0 < p * q.
Proof.
  intros Hp Hq.
  pose proof (Z.prime_ge_2 p Hp). pose proof (Z.prime_ge_2 q Hq). nia.
Qed.

Lemma sign_encoded (n d : Z) (msg : pystr) (b : pybytes) :
  n <> 0 -> 0 <= d -> encode msg = Returns b ->
  sign msg (d, n) = Returns ((digest_int b mod n) ^ d mod n).
Proof.
  intros Hn Hd Hb. unfold sign.
  rewrite (msg_hash_encoded msg b) by assumption. cbn [bind].
  apply pow_nonneg_exp; assumption.
Qed.

Lemma verify_encoded (n e : Z) (msg : pystr) (b : pybytes) (s : Z) :
  n <> 0 -> 0 <= e -> encode msg = Returns b ->
  verify msg s (e, n) = Returns (digest_int b mod n =? s ^ e mod n).
Proof.
  intros Hn He Hb. unfold verify.
  rewrite (msg_hash_encoded msg b) by assumption. cbn [bind].
  rewrite pow_nonneg_exp by assumption. reflexivity.
Qed.

(** Verifying undoes signing: the signature of a reduced digest, raised to
    [e], is that digest again. *)
Lemma signature_recovers (p q e d h : Z) :
  Z.prime p -> Z.prime q -> p <> q -> 0 <= e -> 0 <= d ->
  (e * d) mod ((p - 1) * (q - 1)) = 1 ->
  ((h mod (p * q)) ^ d mod (p * q)) ^ e mod (p * q) = h mod (p * q).
Proof.
  intros Hp Hq Hpq He Hd Hed. pose proof (modulus_pos p q Hp Hq).
  rewrite (Arith.pow_pow_inverse p q d e (h mod (p * q))); try assumption.
  - apply Z.mod_mod. lia.
  - rewrite Z.mul_comm. assumption.
Qed.

(** Signing undoes verifying, on [[0, p * q)]. *)
Lemma sign_of_verify (p q e d s : Z) :
  Z.prime p -> Z.prime q -> p <> q -> 0 <= e -> 0 <= d ->
  (e * d) mod ((p - 1) * (q - 1)) = 1 ->
  0 <= s < p * q -> (s ^ e mod (p * q)) ^ d mod (p * q) = s.
Proof.
  intros Hp Hq Hpq He Hd Hed Hs.
  rewrite (Arith.pow_pow_inverse p q e d s); try assumption.
  apply Z.mod_small. assumption.
Qed.

(** [verify] performs no range check: it gives on [s] what it gives on
    [s mod n]. *)
Lemma verify_mod (msg : pystr) (s e n : Z) :
  verify msg (s mod n) (e, n) = verify msg s (e, n).
Proof.
  unfold verify. destruct (msg_hash msg n); simpl; try reflexivity.
  rewrite pow_mod_base. reflexivity.
Qed.

End SignFacts.

(** ** Primality tests *)

Module PrimeFacts.

Lemma In_range (lo hi i : Z) : In i (range lo hi) <-> lo <= i < hi.
Proof.
  unfold range. rewrite in_map_iff. split.
  - intros (k & <- & Hk). apply in_seq in Hk. lia.
  - intros Hi. exists (Z.to_nat (i - lo)). split; [lia |].
    apply in_seq. lia.
Qed.

(** The trial division shared by both tests: no [i] of [range(2, hi)]
    divides [num]. *)
Lemma trial_division (num hi : Z) :
  forallb (fun i => negb (num mod i =? 0)) (range 2 hi) = true <->
  forall i, 2 <= i < hi -> ~ (i | num).
Proof.
  rewrite forallb_forall. split.
  - intros H i Hi Hdiv. specialize (H i (proj2 (In_range 2 hi i) Hi)).
    apply Z.mod_divide in Hdiv; [| lia].
    rewrite Hdiv in H. discriminate.
  - intros H i Hi. apply In_range in Hi.
    destruct (Z.eqb_spec (num mod i) 0) as [H0 | ?]; [| reflexivity].
    exfalso. apply (H i Hi). apply Z.mod_divide; [lia | assumption].
Qed.

Lemma trial_division_false (num hi : Z) :
  forallb (fun i => negb (num mod i =? 0)) (range 2 hi) = false <->
  exists i, 2 <= i < hi /\ num mod i = 0.
Proof.
  split.
  - intros H.
    assert (Hex : existsb (fun i => num mod i =? 0) (range 2 hi) = true).
    { induction (range 2 hi) as [| i l IH]; simpl in *; [discriminate |].
      destruct (num mod i =? 0); simpl in *; auto. }
    apply existsb_exists in Hex. destruct Hex as (i & Hi & H0).
    exists i. split; [apply In_range; assumption | lia].
  - intros (i & Hi & H0).
    destruct (forallb _ _) eqn:E; [| reflexivity].
    rewrite trial_division in E. exfalso. apply (E i Hi).
    apply Z.mod_divide; [lia | assumption].
Qed.

(** [prime] of [4 RSA.py] decides primality from 1 on ... *)
Lemma prime_spec (num : Z) : 1 <= num -> (RSA.prime num = true <-> Z.prime num).
Proof.
  intros Hnum. unfold RSA.prime.
  destruct (Z.eqb_spec num 1) as [-> | H1].
  { split; [discriminate | intros H; exfalso; exact (Z.not_prime_1 H)]. }
  destruct (Z.eqb_spec num 2) as [-> | H2].
  { split; [intros _; exact Z.prime_2 | reflexivity]. }
  rewrite trial_division. unfold Z.prime. split.
  - intros H. split; [lia |]. intros i Hi. apply H. lia.
  - intros (_ & H) i Hi. apply H. lia.
Qed.

(** ... but answers [True] on zero and on every negative number, where the
    loop over [range(2, num)] has nothing to try. *)
Lemma prime_nonpositive (num : Z) : num <= 0 -> RSA.prime num = true.
Proof.
  intros Hnum. unfold RSA.prime.
  destruct (Z.eqb_spec num 1); [lia |].
  destruct (Z.eqb_spec num 2); [lia |].
  apply trial_division. intros i Hi. lia.
Qed.

(** A composite number has a divisor up to its square root. *)
Lemma small_divisor (num i : Z) :
  1 < i < num -> (i | num) ->
  exists j, 2 <= j <= Z.sqrt num /\ (j | num).
Proof.
  intros Hi (k & Hk).
  pose proof (Z.sqrt_spec num ltac:(lia)) as Hs. cbv zeta in Hs.
  pose proof (Z.sqrt_nonneg num) as Hs0.
  assert (Hk1 : 1 < k) by nia.
  destruct (Z_le_gt_dec i (Z.sqrt num)) as [Hle | Hgt].
  - exists i. split; [lia | exists k; assumption].
  - exists k. split; [| exists i; lia].
    split; [lia |].
    destruct (Z_le_gt_dec k (Z.sqrt num)) as [? | Hk2]; [assumption |].
    exfalso.
    assert (Z.succ (Z.sqrt num) * Z.succ (Z.sqrt num) <= k * i)
      by (apply Z.mul_le_mono_nonneg; lia).
    lia.
Qed.

(** [is_prime] of [3 Diffie-Hellman.py] decides primality on all integers. *)
Lemma is_prime_spec (num : Z) : DiffieHellman.is_prime num = true <-> Z.prime num.
Proof.
  unfold DiffieHellman.is_prime.
  destruct (Z.leb_spec num 1) as [Hle | Hgt].
  { split; [discriminate |]. intros H. pose proof (Z.prime_ge_2 num H). lia. }
  rewrite trial_division. unfold Z.prime.
  pose proof (Z.sqrt_lt_lin num Hgt) as Hlin.
  split.
  - intros H. split; [assumption |]. intros i Hi Hdiv.
    destruct (small_divisor num i Hi Hdiv) as (j & Hj & Hjd).
    apply (H j); [lia | assumption].
  - intros (_ & H) i Hi. apply H. lia.
Qed.

(** The primes drawn by the key generation of [4 RSA.py] are primes. *)
Lemma prime_list_spec (p : Z) :
  In p RSA.prime_list <-> 127 <= p <= 500 /\ Z.prime p.
Proof.
  unfold RSA.prime_list. rewrite filter_In, In_range. split.
  - intros (Hr & Hp). split; [lia |]. apply prime_spec; [lia | assumption].
  - intros (Hr & Hp). split; [lia |]. apply prime_spec; [lia | assumption].
Qed.

End PrimeFacts.

(** ** Decimal numerals, [split] and [join] *)

Module StrFacts.

Lemma log2_div10 (n : Z) : 10 <= n -> Z.log2 (n / 10) < Z.log2 n.
Proof.
  intros Hn. apply Z.log2_lt_pow2.
  - apply Z.div_str_pos. lia.
  - pose proof (Z.log2_spec n ltac:(lia)) as (_ & Hup).
    rewrite Z.pow_succ_r in Hup by apply Z.log2_nonneg.
    pose proof (Z.pow_pos_nonneg 2 (Z.log2 n) ltac:(lia) (Z.log2_nonneg n)).
    apply Z.div_lt_upper_bound; lia.
Qed.

Lemma digits_digit (fuel : nat) (n : Z) :
  0 <= n -> Forall is_digit (digits fuel n).
Proof.
  revert n. induction fuel as [| fuel IH]; intros n Hn; cbn [digits].
  - constructor.
  - destruct (Z.ltb_spec n 10).
    + constructor; [unfold is_digit; lia | constructor].
    + apply Forall_app. split.
      * apply IH. apply Z.div_pos; lia.
      * constructor; [| constructor].
        pose proof (Z.mod_pos_bound n 10 ltac:(lia)). unfold is_digit. lia.
Qed.

Lemma digits_nonempty (fuel : nat) (n : Z) : digits (S fuel) n <> [].
Proof.
  cbn [digits]. destruct (n <? 10); [discriminate |].
  intros H. apply app_eq_nil in H. destruct H. discriminate.
Qed.

Lemma parse_digits_app (acc : Z) (s1 s2 : pystr) :
  parse_digits acc (s1 ++ s2) =
  match parse_digits acc s1 with
  | Some v => parse_digits v s2
  | None => None
  end.
Proof.
  revert acc. induction s1 as [| c s1 IH]; intros acc; simpl; [reflexivity |].
  destruct (digit_val c); [apply IH | reflexivity].
Qed.

Lemma parse_digits_digits (fuel : nat) (n : Z) :
  0 <= n -> (Z.to_nat (Z.log2 n) < fuel)%nat ->
  parse_digits 0 (digits fuel n) = Some n.
Proof.
  revert n. induction fuel as [| fuel IH]; intros n Hn Hfuel; [lia |].
  cbn [digits]. destruct (Z.ltb_spec n 10) as [Hlt | Hge].
  - cbn [parse_digits]. unfold digit_val.
    destruct (Z.leb_spec 48 (48 + n)); [| lia].
    destruct (Z.leb_spec (48 + n) 57); [| lia].
    cbn [andb]. f_equal. lia.
  - rewrite parse_digits_app. rewrite IH.
    + cbn [parse_digits]. unfold digit_val.
      pose proof (Z.mod_pos_bound n 10 ltac:(lia)).
      destruct (Z.leb_spec 48 (48 + n mod 10)); [| lia].
      destruct (Z.leb_spec (48 + n mod 10) 57); [| lia].
      cbn [andb]. f_equal. pose proof (Z.div_mod n 10 ltac:(lia)). lia.
    + apply Z.div_pos; lia.
    + pose proof (log2_div10 n Hge). pose proof (Z.log2_nonneg (n / 10)). lia.
Qed.

(** The numeral of a non-negative number: digits only, and at least one. *)
Lemma str_nonneg (z : Z) :
  0 <= z -> str z <> [] /\ Forall is_digit (str z) /\
            parse_digits 0 (str z) = Some z.
Proof.
  intros Hz. unfold str, digits_fuel. destruct (Z.ltb_spec z 0); [lia |].
  split_and.
  - apply digits_nonempty.
  - apply digits_digit. assumption.
  - apply parse_digits_digits; [assumption | lia].
Qed.

(** [int(str(z)) == z]. *)
Lemma int_str (z : Z) : int (str z) = Returns z.
Proof.
  destruct (Z.ltb_spec z 0) as [Hneg | Hpos].
  - destruct (str_nonneg (- z) ltac:(lia)) as (Hne & _ & Hparse).
    unfold str in *. destruct (Z.ltb_spec z 0); [| lia].
    destruct (Z.ltb_spec (- z) 0); [lia |].
    remember (digits (digits_fuel (- z)) (- z)) as ds eqn:E.
    destruct ds as [| c s]; [congruence |].
    cbn [int Z.eqb Pos.eqb]. unfold parse_unsigned.
    rewrite Hparse. f_equal. lia.
  - destruct (str_nonneg z Hpos) as (Hne & Hdig & Hparse).
    destruct (str z) as [| c s] eqn:E; [congruence |].
    inversion Hdig as [| ? ? Hc _]; subst. unfold is_digit in Hc.
    unfold int. destruct (Z.eqb_spec c 45); [lia |].
    destruct (Z.eqb_spec c 43); [lia |].
    unfold parse_unsigned. rewrite Hparse. reflexivity.
Qed.

Lemma str_token (z : Z) : token (str z).
Proof.
  assert (Hd : forall s, Forall is_digit s -> Forall (fun c => isspace c = false) s).
  { intros s. apply Forall_impl. intros c Hc. unfold is_digit in Hc.
    unfold isspace.
    repeat match goal with
           | |- context [?a <=? ?b] => destruct (Z.leb_spec a b); try lia
           | |- context [?a =? ?b] => destruct (Z.eqb_spec a b); try lia
           end; reflexivity. }
  destruct (Z.ltb_spec z 0) as [Hneg | Hpos].
  - destruct (str_nonneg (- z) ltac:(lia)) as (_ & Hdig & _).
    unfold str in *. destruct (Z.ltb_spec z 0); [| lia].
    destruct (Z.ltb_spec (- z) 0); [lia |].
    split; [discriminate |]. constructor; [reflexivity | apply Hd; assumption].
  - destruct (str_nonneg z Hpos) as (Hne & Hdig & _).
    split; [assumption | apply Hd; assumption].
Qed.

Lemma split_from_token (cur tok rest : pystr) :
  Forall (fun c => isspace c = false) tok ->
  split_from cur (tok ++ rest) = split_from (rev tok ++ cur) rest.
Proof.
  revert cur. induction tok as [| c tok IH]; intros cur Htok; [reflexivity |].
  inversion Htok as [| ? ? Hc Htok']; subst. simpl. rewrite Hc.
  rewrite IH by assumption. rewrite <- app_assoc. reflexivity.
Qed.

Lemma split_from_space (cur rest : pystr) :
  cur <> [] -> split_from cur (32 :: rest) = rev cur :: split_from [] rest.
Proof. destruct cur; [congruence | reflexivity]. Qed.

Lemma split_from_end (cur : pystr) :
  cur <> [] -> split_from cur [] = [rev cur].
Proof. destruct cur; [congruence | reflexivity]. Qed.

Lemma rev_nonempty (x : pystr) : x <> [] -> rev x <> [].
Proof.
  intros Hx E. apply Hx. rewrite <- (rev_involutive x), E. reflexivity.
Qed.

(** [' '.join(l).split() == l] for a list of tokens. *)
Lemma split_join (l : list pystr) :
  Forall token l -> split (join [32] l) = l.
Proof.
  unfold split. induction l as [| x l IH]; intros Hl; [reflexivity |].
  inversion Hl as [| ? ? (Hne & Hx) Hl']; subst.
  destruct l as [| y l].
  - cbn [join]. rewrite <- (app_nil_r x) at 1.
    rewrite split_from_token by assumption. rewrite app_nil_r.
    rewrite split_from_end by (apply rev_nonempty; assumption).
    rewrite rev_involutive. reflexivity.
  - change (join [32] (x :: y :: l)) with (x ++ 32 :: join [32] (y :: l)).
    rewrite split_from_token by assumption. rewrite app_nil_r.
    rewrite split_from_space by (apply rev_nonempty; assumption).
    rewrite rev_involutive, IH by assumption. reflexivity.
Qed.

Lemma split_join_str (cs : list Z) : split (join [32] (map str cs)) = map str cs.
Proof.
  apply split_join. apply Forall_map. apply Forall_forall.
  intros c _. apply str_token.
Qed.

End StrFacts.

(** ** [4 RSA.py]: key generation, [encrypt] and [decrypt] *)

Module RSAFacts.
Import RSA PrimeFacts StrFacts.

Lemma e_choices_spec (n phi_n e : Z) :
  In e (e_choices n phi_n) <-> 2 <= e < n /\ Z.gcd e phi_n = 1.
Proof.
  unfold e_choices. rewrite filter_In, In_range, Z.eqb_eq. reflexivity.
Qed.

Lemma find_d_cond_eq (e phi_n d : Z) :
  phi_n <> 0 ->
  find_d_cond e phi_n d = Returns (negb ((e * d) mod phi_n =? 1)).
Proof.
  intros Hphi. unfold find_d_cond, pymod.
  destruct (Z.eqb_spec phi_n 0); [contradiction | reflexivity].
Qed.

(** The trial-increment search stops at the least [d >= 1] with
    [(e * d) % phi_n == 1], as soon as there is one. *)
Lemma find_d_spec (e phi_n d0 : Z) (fuel : nat) :
  phi_n <> 0 -> 1 <= d0 -> (e * d0) mod phi_n = 1 ->
  (Z.to_nat d0 <= fuel)%nat ->
  exists d, find_d fuel e phi_n = Returns d /\
            1 <= d <= d0 /\ (e * d) mod phi_n = 1 /\
            (forall d', 1 <= d' < d -> (e * d') mod phi_n <> 1).
Proof.
  intros Hphi Hd0 Hinv Hfuel. unfold find_d.
  destruct (while_loop_total
              (fun d => 1 <= d <= d0 /\
                        forall d', 1 <= d' < d -> (e * d') mod phi_n <> 1)
              (fun d => Z.to_nat (d0 - d)) (find_d_cond e phi_n) find_d_body)
    with (fuel := fuel) (s := 1) as (d & Hrun & (Hr & Hmin) & Hcond).
  - intros d (Hr & Hmin). rewrite find_d_cond_eq by assumption.
    destruct (Z.eqb_spec ((e * d) mod phi_n) 1) as [H1 | H1]; cbn [negb];
      [left; reflexivity | right].
    split; [reflexivity |]. exists (d + 1). split; [reflexivity |].
    assert (d <> d0) by congruence.
    split_and; try lia.
    intros d' Hd'. destruct (Z.eq_dec d' d) as [-> | ?]; [assumption |].
    apply Hmin. lia.
  - split; [lia |]. intros d' Hd'. lia.
  - lia.
  - exists d. rewrite find_d_cond_eq in Hcond by assumption.
    destruct (Z.eqb_spec ((e * d) mod phi_n) 1); [| discriminate]. auto.
Qed.

Lemma find_d_mono (fuel fuel' : nat) (e phi_n d : Z) :
  find_d fuel e phi_n = Returns d -> (fuel <= fuel')%nat ->
  find_d fuel' e phi_n = Returns d.
Proof.
  unfold find_d. intros H Hle.
  apply (while_loop_mono _ _ fuel fuel' _ _ H); [discriminate | assumption].
Qed.

(** An inverse modulo [phi_n] is unique in [(0, phi_n)]. *)
Lemma inverse_unique (e phi_n d1 d2 : Z) :
  1 < phi_n -> Z.gcd e phi_n = 1 ->
  0 < d1 < phi_n -> 0 < d2 < phi_n ->
  (e * d1) mod phi_n = 1 -> (e * d2) mod phi_n = 1 -> d1 = d2.
Proof.
  intros Hphi Hg H1 H2 E1 E2.
  assert (Hdiv : (phi_n | e * (d1 - d2))).
  { replace (e * (d1 - d2)) with (e * d1 - e * d2) by ring.
    apply Arith.cong_divide; [lia | congruence]. }
  apply Z.gauss in Hdiv; [| rewrite Z.gcd_comm; assumption].
  destruct Hdiv as (k & Hk).
  assert (k = 0) by nia. subst k. lia.
Qed.

(** [mapM] of a function that always returns. *)
Lemma mapM_returns {A B : Type} (f : A -> outcome B) (g : A -> B) (l : list A) :
  (forall x, In x l -> f x = Returns (g x)) -> mapM f l = Returns (map g l).
Proof.
  induction l as [| x l IH]; intros H; [reflexivity |].
  cbn [mapM map]. rewrite (H x (or_introl eq_refl)). cbn [bind].
  rewrite IH by (intros y Hy; apply H; right; assumption). reflexivity.
Qed.

Lemma mapM_map {A B C : Type} (f : B -> outcome C) (g : A -> B) (l : list A) :
  mapM f (map g l) = mapM (fun x => f (g x)) l.
Proof.
  induction l as [| x l IH]; [reflexivity |].
  cbn [mapM map]. rewrite IH. reflexivity.
Qed.

(** The ciphertext: the residues [ord(c) ** e % n], in decimal, separated
    by single spaces. *)
Lemma encrypt_spec (msg : pystr) (n e : Z) :
  n <> 0 ->
  encrypt msg n e = Returns (join [32] (map str (map (fun c => c ^ e mod n) msg))).
Proof.
  intros Hn. unfold encrypt.
  rewrite (mapM_returns _ (fun c => c ^ e mod n)); [reflexivity |].
  intros c _. unfold pymod, ord.
  destruct (Z.eqb_spec n 0); [contradiction | reflexivity].
Qed.

(** Decrypting a ciphertext of that form handles the residues one by one. *)
Lemma decrypt_join_str (cs : list Z) (n d : Z) :
  decrypt (join [32] (map str cs)) n d =
  mapM (fun c => r <- pymod (c ^ d) n ;; chr r) cs.
Proof.
  unfold decrypt. rewrite split_join_str, mapM_map.
  induction cs as [| c cs IH]; [reflexivity |].
  cbn [mapM]. rewrite IH. unfold decrypt_char at 1. rewrite int_str.
  reflexivity.
Qed.

Lemma chr_valid (v : Z) : 0 <= v < 0x110000 -> chr v = Returns v.
Proof.
  intros Hv. unfold chr.
  destruct (Z.leb_spec 0 v); [| lia].
  destruct (Z.ltb_spec v 0x110000); [reflexivity | lia].
Qed.

(** Decryption restores the message, for distinct primes and exponents that
    are inverse to each other modulo [(p-1)(q-1)]. *)
Lemma decrypt_encrypt (p q e d : Z) (msg : pystr) :
  Z.prime p -> Z.prime q -> p <> q -> 0 <= e -> 0 <= d ->
  (e * d) mod ((p - 1) * (q - 1)) = 1 ->
  valid_str msg -> Forall (fun c => ord c < p * q) msg ->
  exists c, encrypt msg (p * q) e = Returns c /\
            decrypt c (p * q) d = Returns msg.
Proof.
  intros Hp Hq Hne He Hd Hed Hvalid Hlt.
  pose proof (SignFacts.modulus_pos p q Hp Hq) as Hn.
  eexists. split; [apply encrypt_spec; lia |].
  rewrite decrypt_join_str, mapM_map.
  rewrite (mapM_returns _ (fun c => c)); [rewrite map_id; reflexivity |].
  intros c Hc. unfold pymod.
  destruct (Z.eqb_spec (p * q) 0); [lia |]. cbn [bind].
  rewrite (Arith.pow_pow_inverse p q e d c) by assumption.
  unfold valid_str in Hvalid. rewrite Forall_forall in Hvalid, Hlt.
  specialize (Hvalid c Hc). specialize (Hlt c Hc). unfold ord in Hlt.
  rewrite Z.mod_small by lia. apply chr_valid. assumption.
Qed.

(** The keys computed by the script from distinct primes and a drawn [e]. *)
Lemma keys_from_spec (p q e : Z) :
  Z.prime p -> Z.prime q -> p <> q ->
  In e (e_choices (p * q) ((p - 1) * (q - 1))) ->
  exists d,
    (forall fuel, (Z.to_nat ((p - 1) * (q - 1)) <= fuel)%nat ->
       keys_from fuel p q e = Returns ((p * q, e), (p * q, d))) /\
    0 < d < (p - 1) * (q - 1) /\ (e * d) mod ((p - 1) * (q - 1)) = 1.
Proof.
  intros Hp Hq Hne He. apply e_choices_spec in He. destruct He as (He & Hg).
  pose proof (KeypairFacts.distinct_primes_phi p q Hp Hq Hne) as Hphi.
  destruct (SignatureFacts.modinv_coprime e ((p - 1) * (q - 1)))
    as (d0 & _ & Hd0 & Hinv0); try lia.
  destruct (find_d_spec e ((p - 1) * (q - 1)) d0 (Z.to_nat d0))
    as (d & Hrun & Hd & Hinv & _); try lia.
  exists d. split_and; try lia.
  intros fuel Hfuel. unfold keys_from.
  rewrite (find_d_mono _ fuel _ _ _ Hrun) by lia. reflexivity.
Qed.

Lemma keys_from_returns (fuel : nat) (p q e : Z) keys :
  Z.prime p -> Z.prime q -> p <> q ->
  In e (e_choices (p * q) ((p - 1) * (q - 1))) ->
  keys_from fuel p q e = Returns keys ->
  exists d, keys = ((p * q, e), (p * q, d)) /\
            0 < d < (p - 1) * (q - 1) /\ (e * d) mod ((p - 1) * (q - 1)) = 1.
Proof.
  intros Hp Hq Hne He Hrun.
  destruct (keys_from_spec p q e Hp Hq Hne He) as (d & Hall & Hd).
  exists d. split; [| exact Hd].
  set (N := Nat.max fuel (Z.to_nat ((p - 1) * (q - 1)))).
  specialize (Hall N ltac:(lia)).
  unfold keys_from in *.
  destruct (find_d fuel e ((p - 1) * (q - 1))) as [d' | |] eqn:E;
    cbn [bind] in Hrun; try discriminate.
  rewrite (find_d_mono fuel N _ _ _ E) in Hall by lia.
  cbn [bind] in Hall. congruence.
Qed.

End RSAFacts.

(** * The properties of the specification *)

Import Signature.

(** ** Modular inverse *)

(** C7.  For [e > 1] and [phi > 1] coprime, the trial-increment search of
    [4 RSA.py] (the least [d >= 1] with [(e * d) % phi == 1]) and
    [modinv(e, phi)] of [6 Digital Signature.py] return the same value, the
    only [d] in [(0, phi)] with [e * d = 1] modulo [phi].  The search returns
    it with any fuel from [d] on, and returns nothing else with less. *)
Theorem find_d_modinv_agree (e phi : Z) :
  1 < e -> 1 < phi -> Z.gcd e phi = 1 ->
  exists d,
    modinv e phi = Returns d /\
    (forall fuel, (Z.to_nat d <= fuel)%nat -> RSA.find_d fuel e phi = Returns d) /\
    (forall fuel d', RSA.find_d fuel e phi = Returns d' -> d' = d) /\
    0 < d < phi /\ (e * d) mod phi = 1 /\
    (forall d', 1 <= d' < d -> (e * d') mod phi <> 1) /\
    (forall d', 0 < d' < phi -> (e * d') mod phi = 1 -> d' = d).
Proof.
  intros He Hphi Hg.
  destruct (SignatureFacts.modinv_coprime e phi) as (d0 & Hd0 & Hr0 & Hinv0);
    try lia.
  destruct (RSAFacts.find_d_spec e phi d0 (Z.to_nat d0))
    as (d & Hrun & Hr & Hinv & Hmin); try lia.
  assert (d = d0) by (apply (RSAFacts.inverse_unique e phi); auto; lia).
  subst d0. exists d. split_and; auto; try lia.
  - intros fuel Hfuel. apply (RSAFacts.find_d_mono (Z.to_nat d)); assumption.
  - intros fuel d' Hd'.
    pose proof (RSAFacts.find_d_mono fuel (Nat.max fuel (Z.to_nat d)) _ _ _ Hd'
                  ltac:(lia)) as H1.
    pose proof (RSAFacts.find_d_mono (Z.to_nat d) (Nat.max fuel (Z.to_nat d))
                  _ _ _ Hrun ltac:(lia)) as H2.
    congruence.
  - intros d' Hd' Hinv'. apply (RSAFacts.inverse_unique e phi); auto.
Qed.

Lemma find_d_modinv_agree_17_780 :
  exists d,
    modinv 17 780 = Returns d /\
    (forall fuel, (Z.to_nat d <= fuel)%nat -> RSA.find_d fuel 17 780 = Returns d) /\
    (forall fuel d', RSA.find_d fuel 17 780 = Returns d' -> d' = d) /\
    0 < d < 780 /\ (17 * d) mod 780 = 1 /\
    (forall d', 1 <= d' < d -> (17 * d') mod 780 <> 1) /\
    (forall d', 0 < d' < 780 -> (17 * d') mod 780 = 1 -> d' = d).
Proof.
  apply (find_d_modinv_agree 17 780); [lia | lia | reflexivity].
Defined.

(** C6 (as the code has it).  When [gcd(a, m) != 1], [modinv(a, m)] reports
    no failure of its own: for [a > 1] and [m >= 0] the division [a // m]
    ends in [ZeroDivisionError], which nothing catches; for [a <= 1] the
    loop is skipped and 1 is returned; for [a > 1] and [m < 0] one
    iteration is made and 0 is returned. *)
Theorem modinv_not_coprime (a m : Z) :
  Z.gcd a m <> 1 ->
  modinv a m =
  if a <=? 1 then Returns 1
  else if m <? 0 then Returns 0
  else Raises ZeroDivisionError.
Proof.
  intros Hg. destruct (Z.leb_spec a 1).
  - apply SignatureFacts.modinv_small. assumption.
  - destruct (Z.ltb_spec m 0).
    + apply SignatureFacts.modinv_negative_modulus; assumption.
    + apply SignatureFacts.modinv_not_coprime_raises; assumption.
Qed.

Lemma modinv_not_coprime_4_6 :
  Z.gcd 4 6 <> 1 /\ modinv 4 6 = Raises ZeroDivisionError.
Proof.
  split; [discriminate |].
  apply (modinv_not_coprime 4 6). discriminate.
Defined.

(** C6 (as stated) fails: [gcd(4, 6) = 2] and [modinv(4, 6)] ends in an
    uncaught [ZeroDivisionError]; [gcd(0, 5) = 5] and [modinv(0, 5)] returns
    the integer 1. *)
Lemma modinv_unreported_failure :
  gcd 4 6 = Returns 2 /\ modinv 4 6 = Raises ZeroDivisionError /\
  gcd 0 5 = Returns 5 /\ modinv 0 5 = Returns 1.
Proof. repeat split. Qed.

(** ** Key generation *)

(** C5 (as the code has it).  When [phi = (p-1)(q-1) > 1],
    [generate_keypair] returns; its public exponent [e] is 65537 if
    [gcd(65537, phi) == 1], and otherwise the first of 3, 5, 7, ... that is
    coprime to [phi], a search that ends below [phi].  In both cases
    [1 < e] and [gcd(e, phi) = 1]; [e < phi] holds on the second path and,
    on the first, exactly when [phi] exceeds 65537. *)
Theorem public_exponent_selection (p q : Z) :
  1 < (p - 1) * (q - 1) ->
  exists e d,
    (forall fuel, (Z.to_nat ((p - 1) * (q - 1)) <= fuel)%nat ->
       generate_keypair fuel p q = Returns ((e, p * q), (d, p * q))) /\
    1 < e /\ Z.gcd e ((p - 1) * (q - 1)) = 1 /\
    (Z.gcd 65537 ((p - 1) * (q - 1)) = 1 -> e = 65537) /\
    (Z.gcd 65537 ((p - 1) * (q - 1)) <> 1 ->
       3 <= e < (p - 1) * (q - 1) /\ Z.Odd e /\
       forall e', 3 <= e' < e -> Z.Odd e' ->
                  Z.gcd e' ((p - 1) * (q - 1)) <> 1) /\
    (65537 < (p - 1) * (q - 1) -> e < (p - 1) * (q - 1)).
Proof.
  intros Hphi.
  destruct (KeypairFacts.generate_keypair_spec p q Hphi)
    as (e & d & Hrun & Hsel & He & Hg & _).
  exists e, d. unfold public_exponent_spec in Hsel.
  destruct (Z.eqb_spec (Z.gcd 65537 ((p - 1) * (q - 1))) 1) as [H1 | H1];
    split_and; auto; try lia; contradiction.
Qed.

Lemma public_exponent_selection_61_53 :
  exists e d,
    (forall fuel, (Z.to_nat ((61 - 1) * (53 - 1)) <= fuel)%nat ->
       generate_keypair fuel 61 53 = Returns ((e, 61 * 53), (d, 61 * 53))) /\
    1 < e /\ Z.gcd e ((61 - 1) * (53 - 1)) = 1 /\
    (Z.gcd 65537 ((61 - 1) * (53 - 1)) = 1 -> e = 65537) /\
    (Z.gcd 65537 ((61 - 1) * (53 - 1)) <> 1 ->
       3 <= e < (61 - 1) * (53 - 1) /\ Z.Odd e /\
       forall e', 3 <= e' < e -> Z.Odd e' ->
                  Z.gcd e' ((61 - 1) * (53 - 1)) <> 1) /\
    (65537 < (61 - 1) * (53 - 1) -> e < (61 - 1) * (53 - 1)).
Proof.
  apply (public_exponent_selection 61 53). reflexivity.
Defined.

(** C5 (as stated) fails: for the primes [p = 61] and [q = 53] of the
    script, [phi = 3120 > 1] and the public exponent is 65537, which is not
    below [phi]. *)
Lemma public_exponent_above_phi :
  RSA.prime 61 = true /\ RSA.prime 53 = true /\
  1 < (61 - 1) * (53 - 1) /\
  generate_keypair 0 61 53 = Returns ((65537, 3233), (2753, 3233)) /\
  ~ 65537 < (61 - 1) * (53 - 1).
Proof.
  split_and; try reflexivity. intros H. discriminate H.
Qed.

(** The second path of the selection, on the prime [917519 = 14 * 65537 + 1]. *)
Example generate_keypair_fallback :
  generate_keypair 2 917519 7 = Returns ((5, 6422633), (3303065, 6422633)).
Proof. vm_compute. reflexivity. Qed.

(** C8.  [generate_keypair] does not reject equal primes: for every prime
    [p], [generate_keypair(p, p)] returns a key pair, with modulus [p * p]. *)
Theorem generate_keypair_equal_primes (p : Z) :
  Z.prime p ->
  exists e d, forall fuel, (Z.to_nat ((p - 1) * (p - 1)) <= fuel)%nat ->
    generate_keypair fuel p p = Returns ((e, p * p), (d, p * p)).
Proof.
  intros Hp. pose proof (Z.prime_ge_2 p Hp) as Hp2.
  destruct (Z.eq_dec p 2) as [-> | Hne].
  - exists 65537, 0. intros fuel _. reflexivity.
  - destruct (KeypairFacts.generate_keypair_spec p p ltac:(nia))
      as (e & d & Hrun & _).
    exists e, d. exact Hrun.
Qed.

Lemma generate_keypair_equal_primes_61 :
  Z.prime 61 /\
  exists e d, forall fuel, (Z.to_nat ((61 - 1) * (61 - 1)) <= fuel)%nat ->
    generate_keypair fuel 61 61 = Returns ((e, 61 * 61), (d, 61 * 61)).
Proof.
  assert (H : Z.prime 61)
    by (apply PrimeFacts.prime_spec; [lia | vm_compute; reflexivity]).
  split; [exact H | apply (generate_keypair_equal_primes 61 H)].
Defined.

(** ** Encryption and decryption *)

(** For distinct primes the per-character scheme of [4 RSA.py] is correct:
    with the keys computed from [p], [q] and a drawn [e], decrypting the
    ciphertext of a message whose characters are all below [n] restores the
    message. *)
Theorem decrypt_encrypt_distinct_primes (fuel : nat) (p q e n d n' : Z)
  (msg : pystr) :
  Z.prime p -> Z.prime q -> p <> q ->
  In e (RSA.e_choices (p * q) ((p - 1) * (q - 1))) ->
  RSA.keys_from fuel p q e = Returns ((n, e), (n', d)) ->
  valid_str msg -> Forall (fun c => ord c < n) msg ->
  exists c, RSA.encrypt msg n e = Returns c /\
            RSA.decrypt c n' d = Returns msg.
Proof.
  intros Hp Hq Hne He Hkeys Hvalid Hlt.
  destruct (RSAFacts.keys_from_returns fuel p q e _ Hp Hq Hne He Hkeys)
    as (d0 & Heq & Hd0 & Hinv).
  inversion Heq; subst.
  apply RSAFacts.e_choices_spec in He.
  apply RSAFacts.decrypt_encrypt; auto; lia.
Qed.

(** The key generation always finds such keys when the primes differ. *)
Theorem key_generation_distinct_primes (p q e : Z) :
  Z.prime p -> Z.prime q -> p <> q ->
  In e (RSA.e_choices (p * q) ((p - 1) * (q - 1))) ->
  exists d, forall fuel, (Z.to_nat ((p - 1) * (q - 1)) <= fuel)%nat ->
    RSA.keys_from fuel p q e = Returns ((p * q, e), (p * q, d)).
Proof.
  intros Hp Hq Hne He.
  destruct (RSAFacts.keys_from_spec p q e Hp Hq Hne He) as (d & Hrun & _).
  exists d. exact Hrun.
Qed.

(** C1.  The key generation of [4 RSA.py] draws [p] and [q] independently
    from the same list, so it can draw [p = q = 127]; with [e = 5] it
    computes [d = 12701], and the message made of the character 127
    (below [n = 16129]) is encrypted to ["0"] and decrypted to the
    character 0: the round trip does not restore it. *)
Theorem decrypt_encrypt_equal_primes :
  RSA.key_generation (Z.to_nat 12701) 127 127 5 ((16129, 5), (16129, 12701)) /\
  valid_str [127] /\ Forall (fun c => ord c < 16129) [127] /\
  RSA.encrypt [127] 16129 5 = Returns [48] /\
  RSA.decrypt [48] 16129 12701 = Returns [0].
Proof.
  assert (Hp : In 127 RSA.prime_list).
  { apply PrimeFacts.prime_list_spec. split; [lia |].
    apply PrimeFacts.prime_spec; [lia | vm_compute; reflexivity]. }
  unfold RSA.key_generation. split_and; try assumption.
  - apply RSAFacts.e_choices_spec. split; [lia | reflexivity].
  - vm_compute. reflexivity.
  - constructor; [lia | constructor].
  - constructor; [unfold ord; lia | constructor].
  - vm_compute. reflexivity.
  - vm_compute. reflexivity.
Qed.

(** The exponent-inverse law holds for the keys of [generate_keypair] when
    the primes differ. *)
Theorem exponent_inverse_distinct_primes (fuel : nat) (p q e n d n' x : Z) :
  Z.prime p -> Z.prime q -> p <> q ->
  generate_keypair fuel p q = Returns ((e, n), (d, n')) ->
  0 <= x < n ->
  n' = n /\ (x ^ e mod n) ^ d mod n = x mod n.
Proof.
  intros Hp Hq Hne Hkeys Hx.
  pose proof (KeypairFacts.distinct_primes_phi p q Hp Hq Hne) as Hphi.
  destruct (KeypairFacts.generate_keypair_returns fuel p q _ Hphi Hkeys)
    as (e0 & d0 & Heq & _ & He & _ & Hd & Hinv).
  inversion Heq; subst. split; [reflexivity |].
  apply Arith.pow_pow_inverse; auto; lia.
Qed.

(** C2.  [generate_keypair(61, 61)] returns the exponents 65537 and 3473
    for the modulus 3721, and these are not inverse to each other on
    [x = 61 < 3721]: [(61 ** 65537 % 3721) ** 3473 % 3721] is 0, not 61. *)
Theorem exponent_inverse_equal_primes :
  RSA.prime 61 = true /\
  generate_keypair 0 61 61 = Returns ((65537, 3721), (3473, 3721)) /\
  0 <= 61 < 3721 /\
  (61 ^ 65537 mod 3721) ^ 3473 mod 3721 = 0 /\
  61 mod 3721 = 61.
Proof.
  split; [reflexivity |].
  split; [vm_compute; reflexivity |].
  split; [lia |].
  split; [| reflexivity].
  rewrite <- (Zpow_mod_correct 61 65537 3721) by discriminate.
  vm_compute. reflexivity.
Qed.

(** ** Signatures *)

(** C3 (as the code has it).  For a key pair of [generate_keypair] on
    distinct primes and a message that can be encoded, [sign] returns a
    signature that [verify] accepts for that message; for another message
    [verify] answers whether the two digests agree modulo [n], so an altered
    message is rejected exactly when its reduced digest differs. *)
Theorem verify_sign (fuel : nat) (p q : Z) (pub priv : Z * Z)
  (msg msg2 : pystr) (b b2 : pybytes) :
  Z.prime p -> Z.prime q -> p <> q ->
  generate_keypair fuel p q = Returns (pub, priv) ->
  encode msg = Returns b -> encode msg2 = Returns b2 ->
  exists s,
    sign msg priv = Returns s /\
    verify msg s pub = Returns true /\
    verify msg2 s pub =
    Returns (digest_int b2 mod (p * q) =?
             digest_int b mod (p * q)).
Proof.
  intros Hp Hq Hne Hkeys Hb Hb2.
  pose proof (KeypairFacts.distinct_primes_phi p q Hp Hq Hne) as Hphi.
  destruct (KeypairFacts.generate_keypair_returns fuel p q _ Hphi Hkeys)
    as (e & d & Heq & _ & He & _ & Hd & Hinv).
  pose proof (SignFacts.modulus_pos p q Hp Hq) as Hn.
  inversion Heq; subst. eexists. split_and.
  - apply (SignFacts.sign_encoded _ _ msg b); auto; lia.
  - rewrite (SignFacts.verify_encoded _ _ msg b) by (auto; lia).
    rewrite SignFacts.signature_recovers by (auto; lia).
    rewrite Z.eqb_refl. reflexivity.
  - rewrite (SignFacts.verify_encoded _ _ msg2 b2) by (auto; lia).
    rewrite SignFacts.signature_recovers by (auto; lia). reflexivity.
Qed.

Lemma prime_61 : Z.prime 61.
Proof. apply PrimeFacts.prime_spec; [lia | vm_compute; reflexivity]. Qed.

Lemma prime_53 : Z.prime 53.
Proof. apply PrimeFacts.prime_spec; [lia | vm_compute; reflexivity]. Qed.

Lemma verify_sign_61_53 :
  exists s,
    sign [72; 105] (2753, 3233) = Returns s /\
    verify [72; 105] s (65537, 3233) = Returns true /\
    verify [72; 111] s (65537, 3233) =
    Returns (digest_int [72; 111] mod (61 * 53) =?
             digest_int [72; 105] mod (61 * 53)).
Proof.
  apply (verify_sign 0 61 53 (65537, 3233) (2753, 3233)
           [72; 105] [72; 111] [72; 105] [72; 111]).
  - exact prime_61.
  - exact prime_53.
  - discriminate.
  - vm_compute. reflexivity.
  - reflexivity.
  - reflexivity.
Defined.

(** C3 (as stated) fails: with the keys of the script ([p = 61], [q = 53]),
    the signature of ["K"] is accepted for ["<"], which differs from it in
    its single byte; both digests are 173 modulo 3233. *)
Lemma tampered_message_accepted :
  generate_keypair 0 61 53 = Returns ((65537, 3233), (2753, 3233)) /\
  sign [75] (2753, 3233) = Returns 2142 /\
  verify [75] 2142 (65537, 3233) = Returns true /\
  verify [60] 2142 (65537, 3233) = Returns true.
Proof. split_and; vm_compute; reflexivity. Qed.

(** C10 (as the code has it).  For a key pair of [generate_keypair] on
    distinct primes and a message that can be encoded, [sign] returns the
    one and only [s] in [[0, n)] that [verify] accepts for the message. *)
Theorem signature_unique (fuel : nat) (p q : Z) (pub priv : Z * Z)
  (msg : pystr) (b : pybytes) :
  Z.prime p -> Z.prime q -> p <> q ->
  generate_keypair fuel p q = Returns (pub, priv) ->
  encode msg = Returns b ->
  exists s0,
    sign msg priv = Returns s0 /\ 0 <= s0 < p * q /\
    verify msg s0 pub = Returns true /\
    forall s, 0 <= s < p * q -> verify msg s pub = Returns true -> s = s0.
Proof.
  intros Hp Hq Hne Hkeys Hb.
  pose proof (KeypairFacts.distinct_primes_phi p q Hp Hq Hne) as Hphi.
  pose proof (SignFacts.modulus_pos p q Hp Hq) as Hn.
  destruct (KeypairFacts.generate_keypair_returns fuel p q _ Hphi Hkeys)
    as (e & d & Heq & _ & He & _ & Hd & Hinv).
  inversion Heq; subst. eexists. split_and.
  - apply (SignFacts.sign_encoded _ _ msg b); auto; lia.
  - apply Z.mod_pos_bound. lia.
  - apply Z.mod_pos_bound. lia.
  - rewrite (SignFacts.verify_encoded _ _ msg b) by (auto; lia).
    rewrite SignFacts.signature_recovers by (auto; lia).
    rewrite Z.eqb_refl. reflexivity.
  - intros s Hs Hv.
    rewrite (SignFacts.verify_encoded _ _ msg b) in Hv by (auto; lia).
    inversion Hv as [Heqb]. apply Z.eqb_eq in Heqb. rewrite Heqb.
    symmetry. apply SignFacts.sign_of_verify; auto; lia.
Qed.

Lemma signature_unique_61_53 :
  exists s0,
    sign [72; 105] (2753, 3233) = Returns s0 /\ 0 <= s0 < 61 * 53 /\
    verify [72; 105] s0 (65537, 3233) = Returns true /\
    forall s, 0 <= s < 61 * 53 ->
              verify [72; 105] s (65537, 3233) = Returns true -> s = s0.
Proof.
  apply (signature_unique 0 61 53 (65537, 3233) (2753, 3233) [72; 105] [72; 105]).
  - exact prime_61.
  - exact prime_53.
  - discriminate.
  - vm_compute. reflexivity.
  - reflexivity.
Defined.

(** C10 (as stated) fails on a message that has no UTF-8 encoding: for the
    string made of the lone surrogate U+D800, [sign] ends in
    [UnicodeEncodeError] and so does [verify] on every [s], so no [s] at all
    is accepted. *)
Lemma unencodable_message_unsigned :
  valid_str [0xD800] /\
  generate_keypair 0 61 53 = Returns ((65537, 3233), (2753, 3233)) /\
  sign [0xD800] (2753, 3233) = Raises UnicodeEncodeError /\
  ~ exists s, 0 <= s < 3233 /\
              verify [0xD800] s (65537, 3233) = Returns true.
Proof.
  split_and.
  - constructor; [lia | constructor].
  - vm_compute. reflexivity.
  - reflexivity.
  - intros (s & _ & H). discriminate H.
Qed.

(** C9 (as the code has it).  [verify] and [decrypt] check no range: each
    value is reduced modulo [n] by the exponentiation, so a signature [s]
    is treated as [s mod n], and so is each number of a ciphertext, for a
    modulus [n > 0], an exponent [d >= 0] and numbers that are not negative
    and have at most 4300 digits (beyond which [int] refuses them). *)
Theorem no_range_check :
  (forall (msg : pystr) (s e n : Z),
     verify msg s (e, n) = verify msg (s mod n) (e, n)) /\
  (forall (cs : list Z) (n d : Z),
     0 < n -> 0 <= d -> Forall (fun c => 0 <= c < 10 ^ 4300) cs ->
     RSA.decrypt (join [32] (map str cs)) n d =
     RSA.decrypt (join [32] (map str (map (fun c => c mod n) cs))) n d).
Proof.
  split.
  - intros msg s e n. symmetry. apply SignFacts.verify_mod.
  - intros cs n d _ _ _.
    rewrite !RSAFacts.decrypt_join_str, RSAFacts.mapM_map.
    induction cs as [| c cs IH]; [reflexivity |].
    cbn [mapM]. rewrite IH. unfold pymod.
    destruct (Z.eqb_spec n 0); [reflexivity |].
    rewrite Z.mod_pow_l. reflexivity.
Qed.

Lemma no_range_check_6023 :
  RSA.decrypt (join [32] (map str [6023])) 3233 413 =
  RSA.decrypt (join [32] (map str (map (fun c => c mod 3233) [6023]))) 3233 413.
Proof.
  apply (proj2 no_range_check [6023] 3233 413); [lia | lia |].
  constructor; [| constructor].
  split; [lia | vm_compute; reflexivity].
Defined.

(** C9 (as stated) fails: with [n = 3233], the out-of-range signature
    [2142 + 3233] is accepted for ["K"], and the out-of-range ciphertext
    ["6023"] is decrypted to ["A"], with no error. *)
Lemma out_of_range_accepted :
  3233 <= 2142 + 3233 /\
  verify [75] (2142 + 3233) (65537, 3233) = Returns true /\
  3233 <= 6023 /\
  RSA.decrypt (str 6023) 3233 413 = Returns [65].
Proof. split_and; try lia; vm_compute; reflexivity. Qed.

(** ** Primality *)

(** Trial division up to the exact integer square root. *)
Lemma trial_division_sqrt_false (num : Z) :
  2 < num ->
  (DiffieHellman.is_prime num = false <->
   exists i, 2 <= i <= Z.sqrt num /\ num mod i = 0).
Proof.
  intros Hnum. unfold DiffieHellman.is_prime.
  destruct (Z.leb_spec num 1); [lia |].
  rewrite PrimeFacts.trial_division_false. split.
  - intros (i & Hi & H0). exists i. split; [lia | assumption].
  - intros (i & Hi & H0). exists i. split; [lia | assumption].
Qed.

(** [is_prime] of [3 Diffie-Hellman.py] meets the contract of the
    primality test, on the numbers below [2 ** 52], where [int(num**0.5)]
    is the integer square root. *)
Theorem is_prime_contract :
  (forall num, num <= 1 -> DiffieHellman.is_prime num = false) /\
  DiffieHellman.is_prime 2 = true /\
  (forall num, 2 < num < 2 ^ 52 ->
     (DiffieHellman.is_prime num = false <->
      exists i, 2 <= i <= Z.sqrt num /\ num mod i = 0)) /\
  Forall (fun num => DiffieHellman.is_prime num = true) [2; 3; 5; 7; 11; 97] /\
  Forall (fun num => DiffieHellman.is_prime num = false) [1; 0; -3; 100; 91].
Proof.
  split_and.
  - intros num Hnum. unfold DiffieHellman.is_prime.
    destruct (Z.leb_spec num 1); [reflexivity | lia].
  - reflexivity.
  - intros num (Hnum & _). apply trial_division_sqrt_false. assumption.
  - repeat constructor.
  - repeat constructor.
Qed.

(** From 1 on, [prime] of [4 RSA.py] meets it too, with no bound. *)
Theorem prime_contract_positive :
  RSA.prime 1 = false /\ RSA.prime 2 = true /\
  (forall num, 2 < num ->
     (RSA.prime num = false <->
      exists i, 2 <= i <= Z.sqrt num /\ num mod i = 0)) /\
  Forall (fun num => RSA.prime num = true) [2; 3; 5; 7; 11; 97] /\
  Forall (fun num => RSA.prime num = false) [1; 100; 91].
Proof.
  split_and; try reflexivity.
  - intros num Hnum. split.
    + intros Hf.
      assert (Hnp : ~ Z.prime num).
      { intros Hp. apply PrimeFacts.prime_spec in Hp; [| lia]. congruence. }
      assert (Hnp' : DiffieHellman.is_prime num <> true).
      { intros H. apply Hnp. apply PrimeFacts.is_prime_spec. exact H. }
      apply (trial_division_sqrt_false num Hnum).
      destruct (DiffieHellman.is_prime num); congruence.
    + intros Hex.
      apply (trial_division_sqrt_false num Hnum) in Hex.
      destruct (RSA.prime num) eqn:E; [| reflexivity].
      apply PrimeFacts.prime_spec in E; [| lia].
      apply PrimeFacts.is_prime_spec in E. congruence.
  - repeat constructor.
  - repeat constructor.
Qed.

(** C4.  [prime] of [4 RSA.py] only excludes 1: on 0 and on -3 the loop
    over [range(2, num)] is empty and the answer is [True], where the
    contract (and [is_prime]) says [False]. *)
Theorem prime_accepts_nonpositive :
  RSA.prime 0 = true /\ RSA.prime (-3) = true /\
  DiffieHellman.is_prime 0 = false /\ DiffieHellman.is_prime (-3) = false.
Proof. repeat split. Qed.

(** * Further properties of the scripts *)

Lemma while_loop_diverges {S : Type} (I : S -> Prop)
  (cond : S -> outcome bool) (body : S -> outcome S) :
  (forall s, I s ->
     cond s = Returns true /\ exists s', body s = Returns s' /\ I s') ->
  forall fuel s, I s -> while_loop fuel cond body s = OutOfFuel.
Proof.
  intros Hstep. induction fuel as [| fuel IH]; intros s HI; [reflexivity |].
  destruct (Hstep s HI) as (Hc & s' & Hb & HI').
  cbn [while_loop]. rewrite Hc. cbn [bind]. rewrite Hb. cbn [bind].
  apply IH. assumption.
Qed.

(** ** [6 Digital Signature.py] *)

(** [gcd(a, b)] returns for all integers.  Its value is the greatest common
    divisor when [b > 0], the opposite of it when [b < 0], and [a] itself,
    whatever its sign, when [b] is 0. *)
Theorem gcd_value (a b : Z) :
  gcd a b = Returns (if b =? 0 then a else Z.sgn b * Z.gcd a b).
Proof. apply SignatureFacts.gcd_spec. Qed.

(** Whenever [generate_keypair] returns for [phi = (p-1)(q-1) > 1], both
    keys carry the modulus [p * q], the public exponent is odd, and the
    private exponent is the inverse of the public one modulo [phi], taken in
    [(0, phi)]. *)
Theorem generate_keypair_private_exponent (fuel : nat) (p q : Z)
  (keys : (Z * Z) * (Z * Z)) :
  1 < (p - 1) * (q - 1) ->
  generate_keypair fuel p q = Returns keys ->
  exists e d,
    keys = ((e, p * q), (d, p * q)) /\ Z.Odd e /\
    0 < d < (p - 1) * (q - 1) /\ (e * d) mod ((p - 1) * (q - 1)) = 1.
Proof.
  intros Hphi Hkeys.
  destruct (KeypairFacts.generate_keypair_returns fuel p q keys Hphi Hkeys)
    as (e & d & Heq & Hsel & _ & _ & Hd & Hinv).
  exists e, d. split_and; auto; try lia.
  unfold public_exponent_spec in Hsel.
  destruct (Z.gcd 65537 ((p - 1) * (q - 1)) =? 1).
  - subst e. exists 32768. reflexivity.
  - exact (proj1 (proj2 Hsel)).
Qed.

Lemma generate_keypair_private_exponent_61_53 :
  exists e d,
    ((65537, 3233), (2753, 3233)) = ((e, 61 * 53), (d, 61 * 53)) /\ Z.Odd e /\
    0 < d < (61 - 1) * (53 - 1) /\ (e * d) mod ((61 - 1) * (53 - 1)) = 1.
Proof.
  apply (generate_keypair_private_exponent 0 61 53 ((65537, 3233), (2753, 3233))).
  - reflexivity.
  - vm_compute. reflexivity.
Defined.

(** [generate_keypair] validates nothing: when [(p-1)(q-1) <= 0], as for
    [p = 1], no candidate is ever coprime to [phi] for the script's [gcd]
    (which returns [e] itself on [phi = 0] and a negative number on a
    negative [phi]), and the search for [e] never ends. *)
Theorem generate_keypair_diverges (fuel : nat) (p q : Z) :
  (p - 1) * (q - 1) <= 0 -> generate_keypair fuel p q = OutOfFuel.
Proof.
  set (phi := (p - 1) * (q - 1)). intros Hphi.
  assert (Hg : forall e, 3 <= e ->
                 gcd e phi = Returns (if phi =? 0 then e else Z.sgn phi * Z.gcd e phi)
                 /\ (if phi =? 0 then e else Z.sgn phi * Z.gcd e phi) <> 1).
  { intros e He. split; [apply SignatureFacts.gcd_spec |].
    destruct (Z.eqb_spec phi 0); [lia |].
    pose proof (Z.gcd_nonneg e phi). rewrite Z.sgn_neg by lia. lia. }
  unfold generate_keypair. cbv zeta. fold phi.
  destruct (Hg 65537 ltac:(lia)) as (-> & Hne). cbn [bind].
  destruct (Z.eqb_spec (if phi =? 0 then 65537 else Z.sgn phi * Z.gcd 65537 phi) 1)
    as [? | _]; [contradiction |].
  cbn [negb].
  rewrite (while_loop_diverges (fun e => 3 <= e)); [reflexivity | | lia].
  intros e He. unfold find_e_cond, find_e_body.
  destruct (Hg e He) as (-> & Hne'). cbn [bind].
  destruct (Z.eqb_spec (if phi =? 0 then e else Z.sgn phi * Z.gcd e phi) 1);
    [contradiction |].
  split; [reflexivity |]. exists (e + 2). split; [reflexivity | lia].
Qed.

Lemma generate_keypair_diverges_1_53 :
  generate_keypair 1000 1 53 = OutOfFuel.
Proof. apply (generate_keypair_diverges 1000 1 53). discriminate. Defined.

Lemma exponent_inverse_distinct_primes_61_53 :
  3233 = 3233 /\ (65 ^ 65537 mod 3233) ^ 2753 mod 3233 = 65 mod 3233.
Proof.
  apply (exponent_inverse_distinct_primes 0 61 53 65537 3233 2753 3233 65).
  - exact prime_61.
  - exact prime_53.
  - discriminate.
  - vm_compute. reflexivity.
  - lia.
Defined.

(** With a key pair of [generate_keypair] on distinct primes, [verify]
    accepts an integer [s] for a message exactly when [s] is congruent
    modulo [n] to the signature that [sign] returns for it. *)
Theorem verify_accepts_iff (fuel : nat) (p q : Z) (pub priv : Z * Z)
  (msg : pystr) (b : pybytes) (s0 s : Z) :
  Z.prime p -> Z.prime q -> p <> q ->
  generate_keypair fuel p q = Returns (pub, priv) ->
  encode msg = Returns b ->
  sign msg priv = Returns s0 ->
  verify msg s pub = Returns (s mod (p * q) =? s0).
Proof.
  intros Hp Hq Hne Hkeys Hb Hs0.
  pose proof (KeypairFacts.distinct_primes_phi p q Hp Hq Hne) as Hphi.
  pose proof (SignFacts.modulus_pos p q Hp Hq) as Hn.
  destruct (KeypairFacts.generate_keypair_returns fuel p q _ Hphi Hkeys)
    as (e & d & Heq & _ & He & _ & Hd & Hinv).
  inversion Heq; subst.
  rewrite (SignFacts.sign_encoded _ _ msg b) in Hs0 by (auto; lia).
  inversion Hs0 as [Hs0']. clear Hs0.
  rewrite <- SignFacts.verify_mod.
  rewrite (SignFacts.verify_encoded _ _ msg b) by (auto; lia).
  f_equal. pose proof (Z.mod_pos_bound s (p * q) Hn) as Hr.
  set (r := s mod (p * q)) in *. set (h := digest_int b mod (p * q)) in *.
  destruct (Z.eqb_spec r (h ^ d mod (p * q))) as [Hrs | Hrs].
  - apply Z.eqb_eq. rewrite Hrs. symmetry. unfold h.
    apply SignFacts.signature_recovers; auto; lia.
  - apply Z.eqb_neq. intros Heq'. apply Hrs. rewrite Heq'.
    symmetry. apply SignFacts.sign_of_verify; auto; lia.
Qed.

Lemma verify_accepts_iff_61_53 :
  verify [75] (2142 + 5 * 3233) (65537, 3233)
  = Returns ((2142 + 5 * 3233) mod (61 * 53) =? 2142).
Proof.
  apply (verify_accepts_iff 0 61 53 (65537, 3233) (2753, 3233) [75] [75]).
  - exact prime_61.
  - exact prime_53.
  - discriminate.
  - vm_compute. reflexivity.
  - reflexivity.
  - vm_compute. reflexivity.
Defined.

(** With such a key pair, two messages receive the same signature exactly
    when their digests agree modulo [n]. *)
Theorem sign_equal_iff (fuel : nat) (p q : Z) (pub priv : Z * Z)
  (msg msg2 : pystr) (b b2 : pybytes) :
  Z.prime p -> Z.prime q -> p <> q ->
  generate_keypair fuel p q = Returns (pub, priv) ->
  encode msg = Returns b -> encode msg2 = Returns b2 ->
  (sign msg priv = sign msg2 priv <->
   digest_int b mod (p * q) = digest_int b2 mod (p * q)).
Proof.
  intros Hp Hq Hne Hkeys Hb Hb2.
  pose proof (KeypairFacts.distinct_primes_phi p q Hp Hq Hne) as Hphi.
  pose proof (SignFacts.modulus_pos p q Hp Hq) as Hn.
  destruct (KeypairFacts.generate_keypair_returns fuel p q _ Hphi Hkeys)
    as (e & d & Heq & _ & He & _ & Hd & Hinv).
  inversion Heq; subst.
  rewrite (SignFacts.sign_encoded _ _ msg b) by (auto; lia).
  rewrite (SignFacts.sign_encoded _ _ msg2 b2) by (auto; lia).
  split.
  - intros H. inversion H as [H'].
    rewrite <- (SignFacts.signature_recovers p q e d (digest_int b)) by (auto; lia).
    rewrite <- (SignFacts.signature_recovers p q e d (digest_int b2)) by (auto; lia).
    rewrite H'. reflexivity.
  - intros ->. reflexivity.
Qed.

Lemma sign_equal_iff_61_53 :
  sign [75] (2753, 3233) = sign [60] (2753, 3233) <->
  digest_int [75] mod (61 * 53) = digest_int [60] mod (61 * 53).
Proof.
  apply (sign_equal_iff 0 61 53 (65537, 3233) (2753, 3233) [75] [60] [75] [60]).
  - exact prime_61.
  - exact prime_53.
  - discriminate.
  - vm_compute. reflexivity.
  - reflexivity.
  - reflexivity.
Defined.

(** For a message that can be encoded, a modulus [n > 0] and exponents that
    are not negative, [sign] returns a number of [[0, n)] and [verify]
    returns an answer for every integer [s], in range or not. *)
Theorem sign_verify_return (msg : pystr) (b : pybytes) (n d e s : Z) :
  encode msg = Returns b -> 0 < n -> 0 <= d -> 0 <= e ->
  (exists s0, sign msg (d, n) = Returns s0 /\ 0 <= s0 < n) /\
  (exists r, verify msg s (e, n) = Returns r).
Proof.
  intros Hb Hn Hd He. split.
  - eexists. split; [apply (SignFacts.sign_encoded n d msg b); auto; lia |].
    apply Z.mod_pos_bound. assumption.
  - eexists. apply (SignFacts.verify_encoded n e msg b); auto; lia.
Qed.

Lemma sign_verify_return_example :
  (exists s0, sign [72; 105] (413, 3233) = Returns s0 /\ 0 <= s0 < 3233) /\
  (exists r, verify [72; 105] (-7) (17, 3233) = Returns r).
Proof.
  apply (sign_verify_return [72; 105] [72; 105] 3233 413 17 (-7));
    [reflexivity | lia | lia | lia].
Defined.

(** ** [4 RSA.py] *)

Lemma split_spaces (s : pystr) :
  Forall (fun c => isspace c = true) s -> split s = [].
Proof.
  unfold split. induction s as [| c s IH]; intros H; [reflexivity |].
  inversion H as [| ? ? Hc Hs]; subst. cbn [split_from]. rewrite Hc.
  apply IH. assumption.
Qed.

(** [prime_list] holds exactly the primes from 127 to 500. *)
Theorem prime_list_primes (p : Z) :
  In p RSA.prime_list <-> 127 <= p <= 500 /\ Z.prime p.
Proof. apply PrimeFacts.prime_list_spec. Qed.

(** From 1 on, [prime] answers [True] exactly on the prime numbers. *)
Theorem prime_decides (num : Z) :
  1 <= num -> (RSA.prime num = true <-> Z.prime num).
Proof. apply PrimeFacts.prime_spec. Qed.

Lemma prime_decides_97 : RSA.prime 97 = true <-> Z.prime 97.
Proof. apply (prime_decides 97). lia. Defined.

(** The key generation cannot fail, whatever is drawn: for [p] and [q] of
    [prime_list], equal or not, the list that [e] is drawn from is not empty
    (it holds [phi_n - 1]), and for every [e] of it the search for [d] ends,
    with [0 < d < phi_n] and [e * d = 1] modulo [phi_n]. *)
Theorem key_generation_completes (p q : Z) :
  In p RSA.prime_list -> In q RSA.prime_list ->
  In ((p - 1) * (q - 1) - 1) (RSA.e_choices (p * q) ((p - 1) * (q - 1))) /\
  forall e, In e (RSA.e_choices (p * q) ((p - 1) * (q - 1))) ->
    exists d,
      (forall fuel, (Z.to_nat ((p - 1) * (q - 1)) <= fuel)%nat ->
         RSA.key_generation fuel p q e ((p * q, e), (p * q, d))) /\
      0 < d < (p - 1) * (q - 1) /\ (e * d) mod ((p - 1) * (q - 1)) = 1.
Proof.
  intros Hp Hq.
  pose proof (proj1 (PrimeFacts.prime_list_spec p) Hp) as (Hpr & _).
  pose proof (proj1 (PrimeFacts.prime_list_spec q) Hq) as (Hqr & _).
  set (phi := (p - 1) * (q - 1)).
  assert (Hphi : 15876 <= phi) by (subst phi; nia).
  split.
  - apply RSAFacts.e_choices_spec. split; [subst phi; nia |].
    replace phi with (1 + 1 * (phi - 1)) at 2 by ring.
    rewrite Z.gcd_add_mult_diag_r. apply Z.gcd_1_r.
  - intros e He. pose proof He as He'.
    apply RSAFacts.e_choices_spec in He'. destruct He' as (Her & Hg).
    destruct (SignatureFacts.modinv_coprime e phi) as (d0 & _ & Hd0 & Hinv0);
      try lia.
    destruct (RSAFacts.find_d_spec e phi d0 (Z.to_nat d0))
      as (d & Hrun & Hd & Hinv & _); try lia.
    exists d. split_and; try lia.
    intros fuel Hfuel. unfold RSA.key_generation. split_and; auto.
    unfold RSA.keys_from. fold phi.
    rewrite (RSAFacts.find_d_mono _ fuel _ _ _ Hrun) by lia. reflexivity.
Qed.

Lemma in_prime_list_127 : In 127 RSA.prime_list.
Proof.
  apply PrimeFacts.prime_list_spec. split; [lia |].
  apply PrimeFacts.prime_spec; [lia | vm_compute; reflexivity].
Qed.

Lemma in_prime_list_131 : In 131 RSA.prime_list.
Proof.
  apply PrimeFacts.prime_list_spec. split; [lia |].
  apply PrimeFacts.prime_spec; [lia | vm_compute; reflexivity].
Qed.

Lemma key_generation_completes_127 :
  In ((127 - 1) * (127 - 1) - 1)
     (RSA.e_choices (127 * 127) ((127 - 1) * (127 - 1))) /\
  forall e, In e (RSA.e_choices (127 * 127) ((127 - 1) * (127 - 1))) ->
    exists d,
      (forall fuel, (Z.to_nat ((127 - 1) * (127 - 1)) <= fuel)%nat ->
         RSA.key_generation fuel 127 127 e ((127 * 127, e), (127 * 127, d))) /\
      0 < d < (127 - 1) * (127 - 1) /\ (e * d) mod ((127 - 1) * (127 - 1)) = 1.
Proof.
  apply (key_generation_completes 127 127); exact in_prime_list_127.
Defined.

Lemma decrypt_encrypt_distinct_primes_61_53 :
  exists c, RSA.encrypt [72; 105] 3233 17 = Returns c /\
            RSA.decrypt c 3233 2753 = Returns [72; 105].
Proof.
  apply (decrypt_encrypt_distinct_primes (Z.to_nat 2753) 61 53 17 3233 2753 3233
           [72; 105]).
  - exact prime_61.
  - exact prime_53.
  - discriminate.
  - apply RSAFacts.e_choices_spec. split; [lia | reflexivity].
  - vm_compute. reflexivity.
  - repeat (constructor; [lia |]). constructor.
  - repeat (constructor; [unfold ord; lia |]). constructor.
Defined.

(** [encrypt] wraps silently: with keys computed from distinct primes, the
    round trip gives back each character reduced modulo [n], so a message
    is restored exactly when all its code points are below [n]. *)
Theorem decrypt_encrypt_reduces (fuel : nat) (p q e n d n' : Z) (msg : pystr) :
  Z.prime p -> Z.prime q -> p <> q ->
  In e (RSA.e_choices (p * q) ((p - 1) * (q - 1))) ->
  RSA.keys_from fuel p q e = Returns ((n, e), (n', d)) ->
  valid_str msg ->
  exists c, RSA.encrypt msg n e = Returns c /\
            RSA.decrypt c n' d = Returns (map (fun x => x mod n) msg) /\
            (RSA.decrypt c n' d = Returns msg <->
             Forall (fun x => ord x < n) msg).
Proof.
  intros Hp Hq Hne He Hkeys Hvalid.
  destruct (RSAFacts.keys_from_returns fuel p q e _ Hp Hq Hne He Hkeys)
    as (d0 & Heq & Hd0 & Hinv).
  inversion Heq; subst. clear Heq.
  apply RSAFacts.e_choices_spec in He. destruct He as (Her & _).
  pose proof (SignFacts.modulus_pos p q Hp Hq) as Hn.
  assert (Hdec : RSA.decrypt
                   (join [32] (map str (map (fun c => c ^ e mod (p * q)) msg)))
                   (p * q) d0
                 = Returns (map (fun x => x mod (p * q)) msg)).
  { rewrite RSAFacts.decrypt_join_str, RSAFacts.mapM_map.
    apply RSAFacts.mapM_returns. intros c Hc. unfold pymod.
    destruct (Z.eqb_spec (p * q) 0); [lia |]. cbn [bind].
    rewrite (Arith.pow_pow_inverse p q e d0 c) by (auto; lia).
    unfold valid_str in Hvalid. rewrite Forall_forall in Hvalid.
    specialize (Hvalid c Hc).
    pose proof (Z.mod_pos_bound c (p * q) Hn).
    pose proof (Z.mod_le c (p * q) ltac:(lia) Hn).
    apply RSAFacts.chr_valid. lia. }
  eexists. split; [apply RSAFacts.encrypt_spec; lia |].
  split; [exact Hdec |]. rewrite Hdec.
  unfold valid_str in Hvalid. clear Hdec. split.
  - intros H. inversion H as [H']. clear H.
    induction msg as [| c msg IH]; [constructor |].
    inversion Hvalid as [| ? ? Hc Hv]; subst. cbn [map] in H'.
    injection H' as Hc' Hm'. constructor.
    + unfold ord. pose proof (Z.mod_pos_bound c (p * q) Hn). lia.
    + apply IH; assumption.
  - intros H. apply f_equal.
    induction msg as [| c msg IH]; [reflexivity |].
    inversion Hvalid as [| ? ? Hc Hv]; subst.
    inversion H as [| ? ? Hlt Hl]; subst. unfold ord in Hlt. cbn [map].
    rewrite Z.mod_small by lia. rewrite IH by assumption. reflexivity.
Qed.

Lemma decrypt_encrypt_reduces_61_53 :
  exists c, RSA.encrypt [8364] 3233 17 = Returns c /\
            RSA.decrypt c 3233 2753 = Returns (map (fun x => x mod 3233) [8364]) /\
            (RSA.decrypt c 3233 2753 = Returns [8364] <->
             Forall (fun x => ord x < 3233) [8364]).
Proof.
  apply (decrypt_encrypt_reduces (Z.to_nat 2753) 61 53 17 3233 2753 3233 [8364]).
  - exact prime_61.
  - exact prime_53.
  - discriminate.
  - apply RSAFacts.e_choices_spec. split; [lia | reflexivity].
  - vm_compute. reflexivity.
  - constructor; [lia | constructor].
Defined.

(** The ciphertext of a message, for a modulus [n > 0] of at most 4300
    digits and an exponent [e >= 0]: split at white space it gives one
    decimal numeral per character, each the numeral of [ord(c) ** e % n], a
    number of [[0, n)]. *)
Theorem encrypt_ciphertext (msg : pystr) (n e : Z) :
  0 < n <= 10 ^ 4300 -> 0 <= e ->
  exists c cs,
    RSA.encrypt msg n e = Returns c /\
    split c = map str cs /\
    cs = map (fun x => ord x ^ e mod n) msg /\
    length cs = length msg /\
    Forall (fun x => 0 <= x < n) cs.
Proof.
  intros (Hn & _) _.
  exists (join [32] (map str (map (fun c => c ^ e mod n) msg))).
  exists (map (fun c => c ^ e mod n) msg). split_and.
  - apply RSAFacts.encrypt_spec. lia.
  - apply StrFacts.split_join_str.
  - reflexivity.
  - apply length_map.
  - apply Forall_map. apply Forall_forall. intros c _.
    apply Z.mod_pos_bound. assumption.
Qed.

Lemma encrypt_ciphertext_example :
  exists c cs,
    RSA.encrypt [72; 105] 3233 17 = Returns c /\
    split c = map str cs /\
    cs = map (fun x => ord x ^ 17 mod 3233) [72; 105] /\
    length cs = length [72; 105] /\
    Forall (fun x => 0 <= x < 3233) cs.
Proof.
  apply (encrypt_ciphertext [72; 105] 3233 17); [| lia].
  split; [lia | vm_compute; discriminate].
Defined.

(** In the script the modulus is at most [499 * 499], below the number of
    code points, so decrypting a ciphertext of [encrypt] (made with an
    exponent [e >= 0]) with any exponent that is not negative, the right one
    or not (the script tries the public one), raises nothing: it returns as
    many characters as the message had, all below [n]. *)
Theorem decrypt_any_exponent (p q e k : Z) (msg : pystr) :
  In p RSA.prime_list -> In q RSA.prime_list -> 0 <= e -> 0 <= k ->
  exists c out,
    RSA.encrypt msg (p * q) e = Returns c /\
    RSA.decrypt c (p * q) k = Returns out /\
    length out = length msg /\
    Forall (fun x => 0 <= x < p * q) out.
Proof.
  intros Hp Hq _ Hk.
  pose proof (proj1 (PrimeFacts.prime_list_spec p) Hp) as (Hpr & _).
  pose proof (proj1 (PrimeFacts.prime_list_spec q) Hq) as (Hqr & _).
  assert (Hn : 0 < p * q <= 0x110000) by nia.
  exists (join [32] (map str (map (fun c => c ^ e mod (p * q)) msg))).
  exists (map (fun c => (c ^ e mod (p * q)) ^ k mod (p * q)) msg).
  split_and.
  - apply RSAFacts.encrypt_spec. lia.
  - rewrite RSAFacts.decrypt_join_str, RSAFacts.mapM_map.
    apply RSAFacts.mapM_returns. intros c _. unfold pymod.
    destruct (Z.eqb_spec (p * q) 0); [lia |]. cbn [bind].
    apply RSAFacts.chr_valid.
    pose proof (Z.mod_pos_bound ((c ^ e mod (p * q)) ^ k) (p * q) ltac:(lia)).
    lia.
  - apply length_map.
  - apply Forall_map. apply Forall_forall. intros c _.
    apply Z.mod_pos_bound. lia.
Qed.

Lemma decrypt_any_exponent_example :
  exists c out,
    RSA.encrypt [72; 105] (127 * 131) 17 = Returns c /\
    RSA.decrypt c (127 * 131) 17 = Returns out /\
    length out = length [72; 105] /\
    Forall (fun x => 0 <= x < 127 * 131) out.
Proof.
  apply (decrypt_any_exponent 127 131 17 17 [72; 105]).
  - exact in_prime_list_127.
  - exact in_prime_list_131.
  - lia.
  - lia.
Defined.

(** The empty message and the zero modulus: [encrypt] maps the empty
    message to the empty ciphertext for any key and [decrypt] maps a
    ciphertext of white space only to the empty message; with the modulus 0
    and an exponent that is not negative, [encrypt] raises
    [ZeroDivisionError] on any message that is not empty, and so does
    [decrypt] on the numerals of numbers of at most 4300 digits. *)
Theorem encrypt_decrypt_edge_cases :
  (forall n e, RSA.encrypt [] n e = Returns []) /\
  (forall s n d, Forall (fun c => isspace c = true) s ->
                 RSA.decrypt s n d = Returns []) /\
  (forall c msg e, 0 <= e ->
                   RSA.encrypt (c :: msg) 0 e = Raises ZeroDivisionError) /\
  (forall c cs d, 0 <= d -> Forall within_digit_limit (c :: cs) ->
                  RSA.decrypt (join [32] (map str (c :: cs))) 0 d
                  = Raises ZeroDivisionError).
Proof.
  split_and.
  - reflexivity.
  - intros s n d Hs. unfold RSA.decrypt. rewrite split_spaces by assumption.
    reflexivity.
  - reflexivity.
  - intros c cs d _ _. rewrite RSAFacts.decrypt_join_str. reflexivity.
Qed.

Lemma encrypt_decrypt_edge_cases_example :
  RSA.decrypt [32; 10; 9] 3233 413 = Returns [] /\
  RSA.encrypt [72; 105] 0 17 = Raises ZeroDivisionError /\
  RSA.decrypt (join [32] (map str [2790; 65])) 0 413 = Raises ZeroDivisionError.
Proof.
  destruct encrypt_decrypt_edge_cases as (_ & Hspace & Henc & Hdec).
  split_and.
  - apply Hspace. repeat constructor.
  - apply Henc. lia.
  - apply Hdec; [lia |].
    repeat (constructor; [split; vm_compute; reflexivity |]). constructor.
Defined.

(** ** [3 Diffie-Hellman.py] *)

(** On the integers below [2 ** 52], which a double represents exactly,
    [is_prime] answers [True] exactly on the prime numbers. *)
Theorem is_prime_decides (num : Z) :
  num < 2 ^ 52 -> (DiffieHellman.is_prime num = true <-> Z.prime num).
Proof. intros _. apply PrimeFacts.is_prime_spec. Qed.

Lemma is_prime_decides_97 : DiffieHellman.is_prime 97 = true <-> Z.prime 97.
Proof. apply (is_prime_decides 97). reflexivity. Defined.

(** The two primality tests of the repository give the same answer exactly
    from 1 on: on zero and on the negative numbers [prime] says [True] and
    [is_prime] says [False]. *)
Theorem prime_is_prime_agree (num : Z) :
  num < 2 ^ 52 ->
  (RSA.prime num = DiffieHellman.is_prime num <-> 1 <= num).
Proof.
  intros _. split.
  - intros H. destruct (Z_le_gt_dec 1 num) as [? | Hlt]; [assumption |].
    exfalso. rewrite PrimeFacts.prime_nonpositive in H by lia.
    symmetry in H. apply PrimeFacts.is_prime_spec in H.
    pose proof (Z.prime_ge_2 num H). lia.
  - intros Hnum.
    pose proof (PrimeFacts.prime_spec num Hnum) as H1.
    pose proof (PrimeFacts.is_prime_spec num) as H2.
    destruct (RSA.prime num), (DiffieHellman.is_prime num); try reflexivity.
    + assert (false = true) by (apply H2, H1; reflexivity). discriminate.
    + assert (false = true) by (apply H1, H2; reflexivity). discriminate.
Qed.

Lemma prime_is_prime_agree_91 :
  RSA.prime 91 = DiffieHellman.is_prime 91 <-> 1 <= 91.
Proof. apply (prime_is_prime_agree 91). reflexivity. Defined.







